(** * Gray-Scott reaction-diffusion: the simulation core of gray-scott-rd

    Two renderers of the repository are embedded here:
    - [Cpu]: src/App.tsx, the sequential kernel over two [Float32Array]s;
    - [Gpu]: the WebGL 2 renderer, whose kernel is a fragment shader run
      over two ping-pong textures.

    Numbers.  JavaScript numbers and GLSL floats are embedded as exact real
    numbers [R]: the arithmetic of the kernel ([+], [-], [*] and a division
    by the positive grid width) is read without rounding and without
    overflow, so every quantity of the kernel is finite.  What is proved is
    therefore the algebra of the kernel; rounding is not: in binary64 the
    nine products of the stencil on a field of ones add up to 2^-56, here to
    0.  The intensity mapper divides by [0.9 - threshold], which can be
    zero; its JavaScript semantics is embedded on [Number], the reals
    extended with the IEEE special values, and its GLSL semantics on
    [option R], [None] where GLSL leaves the result unspecified.

    Integers (indices, sizes, offsets) are [Z], and the JavaScript remainder
    [%] is [Z.rem] (sign of the dividend).  A typed array is a list, its
    stores out of range are ignored.  A texture is a function from texel
    coordinates to texels.  [Math.random] is an oracle.

    Layout: the two renderers, definition by definition; the notions of the
    statements; then the lemmas, each theorem that settles a claim below the
    lemmas it needs. *)

From Stdlib Require Import Reals Lra Lia ZArith Classical_Prop.
From stdpp Require Import base list.

Local Open Scope Z_scope.

(** ** Typed arrays *)

(** A [Float32Array] is a fixed-length list of numbers.  [new Float32Array(n)]
    is zero-filled. *)
Definition newFloat32Array (n : Z) : list R := replicate (Z.to_nat n) 0%R.

(** [arr[i]].  Every read of the program is in range (lemmas
    [laplace_reads_in_range] and [cell_reads_in_range] below); out of range
    the model answers 0. *)
Definition rd (arr : list R) (i : Z) : R :=
  if i <? 0 then 0%R else default 0%R (arr !! Z.to_nat i).

(** [arr[i] = v].  A typed array ignores a store at a negative index or at an
    index past its end. *)
Definition wr (arr : list R) (i : Z) (v : R) : list R :=
  if i <? 0 then arr else <[Z.to_nat i := v]> arr.

(** ** Parameters (the [params] state of both components) *)

Record Params := mkParams {
  dA : R;
  dB : R;
  feed : R;
  feedDiff : R;
  killMin : R;
  killMax : R;
  iterations : Z;
  feedVariation : R;
  sharpness : R;
  threshold : R
}.

(** The initial value of [useState] in both components. *)
Definition defaultParams : Params :=
  {| dA := 1.0; dB := 0.5; feed := 0.03; feedDiff := 0.015;
     killMin := 0.056; killMax := 0.059; iterations := 8;
     feedVariation := 50; sharpness := 0.1; threshold := 0.5 |}.

(** ** JavaScript numbers with the IEEE special values *)

Inductive Number :=
| Fin (r : R)
| PInf
| NInf
| NaN.

(** [n / d] on finite operands.  A zero divisor is [+0] here: the only
    divisor of the program that can vanish is [0.9 - threshold], and a
    difference of equal finite numbers is [+0]. *)
Definition js_div (n d : R) : Number :=
  if Req_dec_T d 0 then
    if Req_dec_T n 0 then NaN
    else if Rlt_dec 0 n then PInf else NInf
  else Fin (n / d).

(** [Math.min] and [Math.max]: a [NaN] argument gives [NaN]. *)
Definition Math_min (u v : Number) : Number :=
  match u, v with
  | NaN, _ | _, NaN => NaN
  | NInf, _ | _, NInf => NInf
  | PInf, w | w, PInf => w
  | Fin x, Fin y => Fin (Rmin x y)
  end.

Definition Math_max (u v : Number) : Number :=
  match u, v with
  | NaN, _ | _, NaN => NaN
  | PInf, _ | _, PInf => PInf
  | NInf, w | w, NInf => w
  | Fin x, Fin y => Fin (Rmax x y)
  end.

Definition is_int (e : R) : bool :=
  if Req_dec_T e (IZR (Int_part e)) then true else false.

Definition is_odd_int (e : R) : bool := is_int e && Z.odd (Int_part e).

(** [Math.pow(base, e)] for a finite exponent [e] (Number::exponentiate). *)
Definition Math_pow (base : Number) (e : R) : Number :=
  if Req_dec_T e 0 then Fin 1
  else match base with
       | NaN => NaN
       | PInf => if Rlt_dec 0 e then PInf else Fin 0
       | NInf => if Rlt_dec 0 e then (if is_odd_int e then NInf else PInf)
                 else Fin 0
       | Fin x =>
           if Req_dec_T x 0 then (if Rlt_dec 0 e then Fin 0 else PInf)
           else if Rlt_dec 0 x then Fin (Rpower x e)
           else if is_int e then
                  Fin (if Z.odd (Int_part e) then - Rpower (- x) e
                       else Rpower (- x) e)
                else NaN
       end.

(** [v * k] for a finite, positive [k]. *)
Definition js_scale (v : Number) (k : R) : Number :=
  match v with Fin x => Fin (x * k) | w => w end.

(** [Math.round]: the integer nearest to the argument, ties upwards. *)
Definition Math_round (v : Number) : Number :=
  match v with Fin x => Fin (IZR (Int_part (x + 0.5))) | w => w end.

(** The conversion of a store into a [Uint8ClampedArray] (the [data] of an
    [ImageData]), on a value [Math.round] returned. *)
Definition ToUint8Clamp (v : Number) : Z :=
  match v with
  | NaN => 0
  | NInf => 0
  | PInf => 255
  | Fin x => Z.max 0 (Z.min 255 (Int_part x))
  end.

(** ** The randomness of [Math.random] *)

(** [Math.random()] is an oracle: the k-th call of an initialisation returns
    [rand k], a number of [[0,1)].  [Math.floor(Math.random() * n)]: *)
Definition randomBelow (rand : nat -> R) (k : nat) (n : Z) : Z :=
  Int_part (rand k * IZR n).

(** ** src/App.tsx: the sequential renderer *)

Module Cpu.

(** The component's mutable state: the canvas size and the two refs. *)
Record Sim := mkSim {
  width : Z;
  height : Z;
  currentGridRef : option (list R);
  nextGridRef : option (list R)
}.

(** *** initGrid *)

(** The body of the two inner loops of [initGrid] at offset [(dx, dy)] of the
    spot centred at [(x, y)]. *)
Definition spotCell (W H x y : Z) (cur : list R) (dx dy : Z) : list R :=
  let radius := 3 in
  let px := (x + dx + W) `rem` W in
  let py := (y + dy + H) `rem` H in
  if dx * dx + dy * dy <=? radius * radius then
    let idx := (py * W + px) * 2 in
    let cur := wr cur idx 0%R in
    wr cur (idx + 1) 1%R
  else cur.

Definition spot (W H x y : Z) (cur : list R) : list R :=
  foldl (fun cur dy => foldl (fun cur dx => spotCell W H x y cur dx dy)
                             cur (seqZ (-3) 7))
        cur (seqZ (-3) 7).

(** The first loop of [initGrid]: [i] runs over the even indices below the
    length. *)
Definition fillA (cur : list R) : list R :=
  foldl (fun cur k => let i := 2 * k in wr (wr cur i 1%R) (i + 1) 0%R)
        cur (seqZ 0 ((Z.of_nat (length cur) + 1) `div` 2)).

(** The centre of the i-th spot: two calls of the oracle. *)
Definition seedCentre (rand : nat -> R) (W H : Z) (i : nat) : Z * Z :=
  (randomBelow rand (2 * i) W, randomBelow rand (2 * i + 1) H).

Definition seedSpots (rand : nat -> R) (W H : Z) (cur : list R) : list R :=
  foldl (fun cur i => let '(x, y) := seedCentre rand W H i in spot W H x y cur)
        cur (seq 0 20).

Definition initGrid (rand : nat -> R) (s : Sim) : Sim :=
  let W := width s in
  let H := height s in
  let cur := newFloat32Array (W * H * 2) in
  let nxt := newFloat32Array (W * H * 2) in
  {| width := W; height := H;
     currentGridRef := Some (seedSpots rand W H (fillA cur));
     nextGridRef := Some nxt |}.

(** *** computeStep *)

Definition weight (dx dy : Z) : R :=
  let w := 0.05%R in
  let w := if (dx =? 0) || (dy =? 0) then 0.2%R else w in
  let w := if (dx =? 0) && (dy =? 0) then (-1.0)%R else w in
  w.

(** The two inner loops over [dy] and [dx]: the pair [(laplaceA, laplaceB)]. *)
Definition laplace (W H : Z) (cur : list R) (x y : Z) : R * R :=
  foldl (fun acc dy =>
           foldl (fun '(laplaceA, laplaceB) dx =>
                    let px := (x + dx + W) `rem` W in
                    let py := (y + dy + H) `rem` H in
                    let idx := (py * W + px) * 2 in
                    let w := weight dx dy in
                    ((laplaceA + rd cur idx * w)%R,
                     (laplaceB + rd cur (idx + 1) * w)%R))
                 acc (seqZ (-1) 3))
        (0%R, 0%R) (seqZ (-1) 3).

Definition feedRate (p : Params) : R :=
  (feed p + ((feedVariation p - 50) * feedDiff p) / 100)%R.

Definition killRate (p : Params) (W x : Z) : R :=
  let normalizedX := (IZR x / IZR W)%R in
  (killMin p + normalizedX * (killMax p - killMin p))%R.

(** The unclamped right-hand sides of the two assignments. *)
Definition rawA (p : Params) (W H : Z) (cur : list R) (x y : Z) : R :=
  let i := (y * W + x) * 2 in
  let a := rd cur i in
  let b := rd cur (i + 1) in
  (a + (fst (laplace W H cur x y) * dA p - a * b * b + feedRate p * (1 - a)))%R.

Definition rawB (p : Params) (W H : Z) (cur : list R) (x y : Z) : R :=
  let i := (y * W + x) * 2 in
  let a := rd cur i in
  let b := rd cur (i + 1) in
  (b + (snd (laplace W H cur x y) * dB p + a * b * b
        - (feedRate p + killRate p W x) * b))%R.

(** The body of the loops of [computeStep] at cell [(x, y)]: two stores of
    the raw values, then two stores of the values read back and clamped. *)
Definition cell (p : Params) (W H : Z) (cur nxt : list R) (x y : Z) : list R :=
  let i := (y * W + x) * 2 in
  let nxt := wr nxt i (rawA p W H cur x y) in
  let nxt := wr nxt (i + 1) (rawB p W H cur x y) in
  let nxt := wr nxt i (Rmax 0 (Rmin 1 (rd nxt i))) in
  wr nxt (i + 1) (Rmax 0 (Rmin 1 (rd nxt (i + 1)))).

Definition sweep (p : Params) (W H : Z) (cur nxt : list R) : list R :=
  foldl (fun nxt y => foldl (fun nxt x => cell p W H cur nxt x y)
                            nxt (seqZ 0 W))
        nxt (seqZ 0 H).

Definition computeStep (p : Params) (s : Sim) : Sim :=
  match currentGridRef s, nextGridRef s with
  | Some cur, Some nxt =>
      {| width := width s; height := height s;
         currentGridRef := Some (sweep p (width s) (height s) cur nxt);
         nextGridRef := Some cur |}
  | _, _ => s
  end.

(** *** render *)

Definition gs_map (p : Params) (a : R) : Number :=
  js_div (a - threshold p) (0.9 - threshold p).

(** The clamped value, the argument of [Math.pow]. *)
Definition mapped (p : Params) (a : R) : Number :=
  Math_max (Fin 0) (Math_min (Fin 1) (gs_map p a)).

Definition sharpValue (p : Params) (a : R) : Number :=
  Math_pow (mapped p a) (sharpness p).

Definition final (p : Params) (a : R) : Number :=
  Math_round (js_scale (sharpValue p a) 255).

(** The bytes of [imageData.data]: four per cell. *)
Definition render (p : Params) (s : Sim) : option (list Z) :=
  match currentGridRef s with
  | None => None
  | Some cur =>
      Some (foldr (fun k img =>
                     let i := 2 * k in
                     let v := ToUint8Clamp (final p (rd cur i)) in
                     v :: v :: v :: 255 :: img)
                  [] (seqZ 0 ((Z.of_nat (length cur) + 1) `div` 2)))
  end.

(** *** update: one animation frame *)

Definition steps (p : Params) (s : Sim) : Sim :=
  Nat.iter (Z.to_nat (iterations p)) (computeStep p) s.

Definition update (p : Params) (s : Sim) : Sim * option (list Z) :=
  let s := steps p s in (s, render p s).

(** *** resetSimulation *)

(** Both refs are cleared, [initGrid] draws a new grid and [render] paints
    it. *)
Definition resetSimulation (rand : nat -> R) (p : Params) (s : Sim)
  : Sim * option (list Z) :=
  let s := {| width := width s; height := height s;
              currentGridRef := None; nextGridRef := None |} in
  let s := initGrid rand s in
  (s, render p s).

End Cpu.

(** ** The WebGL renderer: shaders and ping-pong textures *)

Module Gpu.

Record vec4 := mkvec4 { red : R; green : R; blue : R; alpha : R }.

(** A texture of RGBA32F texels, addressed by integer texel coordinates. *)
Record Texture := mkTexture {
  tex_w : Z;
  tex_h : Z;
  texel : Z -> Z -> vec4
}.

(** [gl.texImage2D(..., width, height, ..., gl.RGBA, gl.FLOAT, pixels)]: the
    rows of [pixels], four numbers a texel; [null] pixels give zeros. *)
Definition texImage2D (W H : Z) (pixels : option (list R)) : Texture :=
  {| tex_w := W; tex_h := H;
     texel := fun x y =>
       match pixels with
       | None => mkvec4 0 0 0 0
       | Some d =>
           let i := (y * W + x) * 4 in
           mkvec4 (rd d i) (rd d (i + 1)) (rd d (i + 2)) (rd d (i + 3))
       end |}.

(** [texture(sampler, uv)] under [NEAREST] filtering and [REPEAT] wrapping:
    the texel that contains the point, coordinates taken modulo the size. *)
Definition texture (t : Texture) (uv : R * R) : vec4 :=
  texel t (Int_part (fst uv * IZR (tex_w t)) `mod` tex_w t)
          (Int_part (snd uv * IZR (tex_h t)) `mod` tex_h t).

(** [gl.drawArrays] of the full-screen quad into a [W]x[H] framebuffer: the
    fragment shader runs once per pixel, at the pixel's centre. *)
Definition drawArrays (W H : Z) (shader : R * R -> vec4) : Texture :=
  {| tex_w := W; tex_h := H;
     texel := fun x y => shader ((IZR x + 0.5)%R, (IZR y + 0.5)%R) |}.

(** *** initializeTexture *)

Definition spotCell (W H x y : Z) (st : list R) (dx dy : Z) : list R :=
  let radius := 3 in
  if dx * dx + dy * dy <=? radius * radius then
    let px := (x + dx + W) `rem` W in
    let py := (y + dy + H) `rem` H in
    let idx := (py * W + px) * 4 in
    let st := wr st idx 0%R in
    wr st (idx + 1) 1%R
  else st.

Definition spot (W H x y : Z) (st : list R) : list R :=
  foldl (fun st dy => foldl (fun st dx => spotCell W H x y st dx dy)
                            st (seqZ (-3) 7))
        st (seqZ (-3) 7).

Definition fillA (st : list R) : list R :=
  foldl (fun st k =>
           let i := 4 * k in
           let st := wr st i 1%R in
           let st := wr st (i + 1) 0%R in
           let st := wr st (i + 2) 0%R in
           wr st (i + 3) 1%R)
        st (seqZ 0 ((Z.of_nat (length st) + 3) `div` 4)).

Definition seedCentre (rand : nat -> R) (W H : Z) (i : nat) : Z * Z :=
  (randomBelow rand (2 * i) W, randomBelow rand (2 * i + 1) H).

Definition seedSpots (rand : nat -> R) (W H : Z) (st : list R) : list R :=
  foldl (fun st i => let '(x, y) := seedCentre rand W H i in spot W H x y st)
        st (seq 0 20).

(** The array [initialState] that [initializeTexture] uploads. *)
Definition initialState (rand : nat -> R) (W H : Z) : list R :=
  seedSpots rand W H (fillA (newFloat32Array (W * H * 4))).

Definition initializeTexture (rand : nat -> R) (W H : Z) : Texture :=
  texImage2D W H (Some (initialState rand W H)).

(** *** The state of the component *)

(** The canvas size and [texturesRef.current], an array of two textures;
    framebuffer [i] renders into texture [i]. *)
Record GL := mkGL {
  canvas_w : Z;
  canvas_h : Z;
  texture0 : Texture;
  texture1 : Texture
}.

Definition textures (gl : GL) (i : Z) : Texture :=
  if i =? 0 then texture0 gl else texture1 gl.

Definition renderInto (gl : GL) (i : Z) (t : Texture) : GL :=
  if i =? 0
  then {| canvas_w := canvas_w gl; canvas_h := canvas_h gl;
          texture0 := t; texture1 := texture1 gl |}
  else {| canvas_w := canvas_w gl; canvas_h := canvas_h gl;
          texture0 := texture0 gl; texture1 := t |}.

(** [initWebGL]: two empty textures, the first one then initialised. *)
Definition initWebGL (rand : nat -> R) (W H : Z) : GL :=
  {| canvas_w := W; canvas_h := H;
     texture0 := initializeTexture rand W H;
     texture1 := texImage2D W H None |}.

(** *** computeShaderSource *)

Record Uniforms := mkUniforms {
  u_resolution : R * R;
  u_dA : R;
  u_dB : R;
  u_feed : R;
  u_kill : R;
  u_feedDiff : R;
  u_feedVariation : R
}.

Definition weight (x y : Z) : R :=
  let w := 0.05%R in
  let w := if (x =? 0) || (y =? 0) then 0.2%R else w in
  let w := if (x =? 0) && (y =? 0) then (-1.0)%R else w in
  w.

(** GLSL [clamp(x, minVal, maxVal)] is [min(max(x, minVal), maxVal)]. *)
Definition clamp (x lo hi : R) : R := Rmin (Rmax x lo) hi.

(** The 3x3 loop of the shader. *)
Definition laplace (u : Uniforms) (t : Texture) (uv : R * R) : R * R :=
  let texelSize := ((1.0 / fst (u_resolution u))%R,
                    (1.0 / snd (u_resolution u))%R) in
  foldl (fun acc y =>
           foldl (fun '(laplaceA, laplaceB) x =>
                    let offset := ((IZR x * fst texelSize)%R,
                                   (IZR y * snd texelSize)%R) in
                    let neighbor :=
                      texture t ((fst uv + fst offset)%R,
                                 (snd uv + snd offset)%R) in
                    let w := weight x y in
                    ((laplaceA + red neighbor * w)%R,
                     (laplaceB + green neighbor * w)%R))
                 acc (seqZ (-1) 3))
        (0%R, 0%R) (seqZ (-1) 3).

Definition feedRate (u : Uniforms) : R :=
  (u_feed u + ((u_feedVariation u - 50.0) * u_feedDiff u) / 100.0)%R.

Definition killRate (u : Uniforms) : R := u_kill u.

(** [main] of the compute shader at the fragment [gl_FragCoord]. *)
Definition computeShader (u : Uniforms) (t : Texture) (gl_FragCoord : R * R)
  : vec4 :=
  let uv := ((fst gl_FragCoord / fst (u_resolution u))%R,
             (snd gl_FragCoord / snd (u_resolution u))%R) in
  let cell := texture t uv in
  let A := red cell in
  let B := green cell in
  let '(laplaceA, laplaceB) := laplace u t uv in
  let nextA :=
    (A + (u_dA u * laplaceA - A * B * B + feedRate u * (1.0 - A)))%R in
  let nextB :=
    (B + (u_dB u * laplaceB + A * B * B - (feedRate u + killRate u) * B))%R in
  let nextA := clamp nextA 0.0 1.0 in
  let nextB := clamp nextB 0.0 1.0 in
  mkvec4 nextA nextB 0.0 1.0.

(** *** computeStep *)

(** The object [uniforms] of [computeStep]. *)
Definition uniforms (p : Params) (gl : GL) : Uniforms :=
  {| u_resolution := (IZR (canvas_w gl), IZR (canvas_h gl));
     u_dA := dA p;
     u_dB := dB p;
     u_feed := feed p;
     u_kill := killMin p;
     u_feedDiff := feedDiff p;
     u_feedVariation := feedVariation p |}.

(** One iteration of the ping-pong loop. *)
Definition pingPong (p : Params) (gl : GL) (i : Z) : GL :=
  let readIdx := i `rem` 2 in
  let writeIdx := (i + 1) `rem` 2 in
  renderInto gl writeIdx
    (drawArrays (canvas_w gl) (canvas_h gl)
       (computeShader (uniforms p gl) (textures gl readIdx))).

Definition computeStep (p : Params) (gl : GL) : GL :=
  foldl (pingPong p) gl (seqZ 0 (iterations p)).

(** *** renderShaderSource and render *)

(** GLSL leaves the result of a division by zero unspecified, and that of
    [pow(x, y)] undefined for [x < 0] and for [x = 0] with [y <= 0]: [None]. *)
Definition glsl_div (n d : R) : option R :=
  if Req_dec_T d 0 then None else Some (n / d)%R.

Definition glsl_pow (x y : R) : option R :=
  if Rlt_dec x 0 then None
  else if Req_dec_T x 0 then (if Rlt_dec 0 y then Some 0%R else None)
  else Some (Rpower x y).

(** The clamped value of the render shader on the red channel [gs]. *)
Definition mapped (u_threshold gs : R) : option R :=
  match glsl_div (gs - u_threshold) (0.9 - u_threshold) with
  | None => None
  | Some gs_map => Some (clamp gs_map 0.0 1.0)
  end.

(** [sharp], the grey level of [fragColor]. *)
Definition sharp (u_threshold u_sharpness gs : R) : option R :=
  match mapped u_threshold gs with
  | None => None
  | Some m => glsl_pow m u_sharpness
  end.

Definition renderShader (u_threshold u_sharpness : R) (t : Texture)
  (v_texCoord : R * R) : option R :=
  let color := texture t v_texCoord in
  let gs := red color in
  sharp u_threshold u_sharpness gs.

(** The texture [render] binds for the render shader. *)
Definition displayed (p : Params) (gl : GL) : Texture :=
  textures gl ((iterations p + 1) `rem` 2).

(** [render]: the grey level of the canvas pixel [(x, y)]; the vertex shader
    interpolates [v_texCoord] to the pixel's centre. *)
Definition render (p : Params) (gl : GL) (x y : Z) : option R :=
  renderShader (threshold p) (sharpness p) (displayed p gl)
    (((IZR x + 0.5) / IZR (canvas_w gl))%R,
     ((IZR y + 0.5) / IZR (canvas_h gl))%R).

(** [update]: one animation frame. *)
Definition update (p : Params) (gl : GL) : GL * (Z -> Z -> option R) :=
  let gl := computeStep p gl in (gl, render p gl).

(** *** resetSimulation *)

(** The first texture is initialised again, the second one cleared, and
    [render] is called. *)
Definition resetSimulation (rand : nat -> R) (p : Params) (gl : GL)
  : GL * (Z -> Z -> option R) :=
  let gl := {| canvas_w := canvas_w gl; canvas_h := canvas_h gl;
               texture0 := initializeTexture rand (canvas_w gl) (canvas_h gl);
               texture1 := texImage2D (canvas_w gl) (canvas_h gl) None |} in
  (gl, render p gl).

End Gpu.

(** ** Notions used in the statements *)

(** [Math.max(0, Math.min(1, v))]. *)
Definition clamp01 (v : R) : R := Rmax 0 (Rmin 1 v).

Definition unit_interval (v : R) : Prop := (0 <= v <= 1)%R.

(** The cell [(x, y)] lies on the [W]x[H] grid. *)
Definition on_grid (W H x y : Z) : Prop := 0 <= x < W /\ 0 <= y < H.

(** The array holds [n] numbers for each of the [W * H] cells. *)
Definition sized (n W H : Z) (arr : list R) : Prop :=
  Z.of_nat (length arr) = W * H * n.

(** The two concentrations of the cell [(x, y)] of a grid of the sequential
    renderer. *)
Definition cellA (W : Z) (g : list R) (x y : Z) : R := rd g ((y * W + x) * 2).
Definition cellB (W : Z) (g : list R) (x y : Z) : R :=
  rd g ((y * W + x) * 2 + 1).

(** The values [computeStep] leaves in the cell [(x, y)] of the next grid. *)
Definition nextA (p : Params) (W H : Z) (cur : list R) (x y : Z) : R :=
  clamp01 (Cpu.rawA p W H cur x y).
Definition nextB (p : Params) (W H : Z) (cur : list R) (x y : Z) : R :=
  clamp01 (Cpu.rawB p W H cur x y).

(** The step function of the sequential renderer, on grids: the sweep into a
    fresh array (the sweep does not depend on the old contents of the array
    it overwrites, lemma [sweep_scratch]). *)
Definition stepGrid (p : Params) (W H : Z) (cur : list R) : list R :=
  Cpu.sweep p W H cur (newFloat32Array (W * H * 2)).

(** The step function of the WebGL renderer, on textures: one draw of the
    compute shader. *)
Definition stepTexture (p : Params) (W H : Z) (t : Gpu.Texture) : Gpu.Texture :=
  Gpu.drawArrays W H
    (Gpu.computeShader
       {| Gpu.u_resolution := (IZR W, IZR H);
          Gpu.u_dA := dA p; Gpu.u_dB := dB p; Gpu.u_feed := feed p;
          Gpu.u_kill := killMin p; Gpu.u_feedDiff := feedDiff p;
          Gpu.u_feedVariation := feedVariation p |} t).

(** The texture holds the grid: texel [(x, y)] carries the two
    concentrations of cell [(x, y)] in its red and green channels. *)
Definition holds (W H : Z) (t : Gpu.Texture) (g : list R) : Prop :=
  Gpu.tex_w t = W /\ Gpu.tex_h t = H /\
  forall x y, on_grid W H x y ->
    Gpu.red (Gpu.texel t x y) = cellA W g x y /\
    Gpu.green (Gpu.texel t x y) = cellB W g x y.

(** *** Reachable states *)

(** The states of the sequential renderer: [initGrid] (at mount or on a
    reset) on a canvas, whose [width] and [height] are unsigned, then any
    number of [computeStep]s, each under any parameters. *)
Inductive cpu_reachable : Cpu.Sim -> Prop :=
| cpu_init rand W H c n :
    0 <= W -> 0 <= H ->
    cpu_reachable (Cpu.initGrid rand (Cpu.mkSim W H c n))
| cpu_step p s :
    cpu_reachable s -> cpu_reachable (Cpu.computeStep p s).

(** The states of the WebGL renderer: [initWebGL] (a reset leaves the same
    textures), then any number of [computeStep] batches, each under any
    parameters. *)
Inductive gpu_reachable : Gpu.GL -> Prop :=
| gpu_init rand W H :
    gpu_reachable (Gpu.initWebGL rand W H)
| gpu_step p gl :
    gpu_reachable gl -> gpu_reachable (Gpu.computeStep p gl).

(** There is a current grid, and each of its cells has both concentrations
    in [[0,1]]. *)
Definition cpu_bounded (s : Cpu.Sim) : Prop :=
  exists cur, Cpu.currentGridRef s = Some cur /\
  forall x y, on_grid (Cpu.width s) (Cpu.height s) x y ->
    unit_interval (cellA (Cpu.width s) cur x y) /\
    unit_interval (cellB (Cpu.width s) cur x y).

(** Every texel of both textures has its red and green channels in [[0,1]]. *)
Definition gpu_bounded (gl : Gpu.GL) : Prop :=
  forall i x y, on_grid (Gpu.canvas_w gl) (Gpu.canvas_h gl) x y ->
    unit_interval (Gpu.red (Gpu.texel (Gpu.textures gl i) x y)) /\
    unit_interval (Gpu.green (Gpu.texel (Gpu.textures gl i) x y)).

(** The 3x3 stencil on a field [f] of the torus: corners 0.05, edges 0.2,
    centre -1, the neighbours taken modulo the grid size, summed in the order
    of the loops. *)
Definition stencil (f : Z -> Z -> R) (W H x y : Z) : R :=
  let n (dx dy : Z) : R := f ((x + dx) `mod` W) ((y + dy) `mod` H) in
  let '(nw, nn, ne) := (n (-1) (-1), n 0 (-1), n 1 (-1)) in
  let '(ww, cc, ee) := (n (-1) 0, n 0 0, n 1 0) in
  let '(sw, ss, se) := (n (-1) 1, n 0 1, n 1 1) in
  (0 + nw * 0.05 + nn * 0.2 + ne * 0.05
     + ww * 0.2 + cc * -1.0 + ee * 0.2
     + sw * 0.05 + ss * 0.2 + se * 0.05)%R.

(** The step kernel, once: the update of the cell [(x, y)] of the fields
    [fa] and [fb] of the two species, under the kill rate [kill]. *)
Definition kernelA (p : Params) (fa fb : Z -> Z -> R) (W H x y : Z) : R :=
  let a := fa x y in
  let b := fb x y in
  clamp01 (a + (stencil fa W H x y * dA p - a * b * b
                + Cpu.feedRate p * (1 - a)))%R.

Definition kernelB (p : Params) (kill : R) (fa fb : Z -> Z -> R)
  (W H x y : Z) : R :=
  let a := fa x y in
  let b := fb x y in
  clamp01 (b + (stencil fb W H x y * dB p + a * b * b
                - (Cpu.feedRate p + kill) * b))%R.

(** The two fields a texture carries. *)
Definition redField (t : Gpu.Texture) (x y : Z) : R := Gpu.red (Gpu.texel t x y).
Definition greenField (t : Gpu.Texture) (x y : Z) : R :=
  Gpu.green (Gpu.texel t x y).

(** The parameters with the kill-rate range collapsed onto [killMin]. *)
Definition flatKill (p : Params) : Params :=
  {| dA := dA p; dB := dB p; feed := feed p; feedDiff := feedDiff p;
     killMin := killMin p; killMax := killMin p; iterations := iterations p;
     feedVariation := feedVariation p; sharpness := sharpness p;
     threshold := threshold p |}.

(** [m ^ s] for a base [m >= 0] and an exponent [s > 0]. *)
Definition power01 (m s : R) : R :=
  if Req_dec_T m 0 then 0%R else Rpower m s.

(** The parameters with the [threshold] slider at its maximum, 0.9. *)
Definition degenerateThreshold : Params :=
  {| dA := 1.0; dB := 0.5; feed := 0.03; feedDiff := 0.015;
     killMin := 0.056; killMax := 0.059; iterations := 8;
     feedVariation := 50; sharpness := 0.1; threshold := 0.9 |}.

(** *** Seed spots *)

(** The flat cell index the loops of a spot centred at [(x, y)] compute for
    the offset [(dx, dy)]: [py * width + px], with the JavaScript
    remainder. *)
Definition spotIndex (W H x y dx dy : Z) : Z :=
  (y + dy + H) `rem` H * W + (x + dx + W) `rem` W.

(** The cell [(x, y)] lies in one of the 20 spots of radius 3 around the
    centres [centre 0 .. centre 19], offsets taken modulo the grid size. *)
Definition in_spot (centre : nat -> Z * Z) (W H x y : Z) : Prop :=
  exists i, (i < 20)%nat /\
  exists dx dy, dx * dx + dy * dy <= 9 /\
    x = (fst (centre i) + dx) `mod` W /\
    y = (snd (centre i) + dy) `mod` H.

(** An array of [n] numbers a cell whose cells are pure B where [M] marks
    them and pure A elsewhere; [k] is the flat index of a cell. *)
Definition marked (n W H : Z) (M : Z -> Prop) (arr : list R) : Prop :=
  sized n W H arr /\
  forall k, 0 <= k < W * H ->
    (M k -> rd arr (k * n) = 0%R /\ rd arr (k * n + 1) = 1%R) /\
    (~ M k -> rd arr (k * n) = 1%R /\ rd arr (k * n + 1) = 0%R).

(** *** Invariants of the loops *)

(** The cell [(x', y')] of [nxt] already holds its new values. *)
Definition settled (p : Params) (W H : Z) (cur nxt : list R) (x' y' : Z)
  : Prop :=
  cellA W nxt x' y' = nextA p W H cur x' y' /\
  cellB W nxt x' y' = nextB p W H cur x' y'.

(** An array of the given length with all entries in [[0,1]]. *)
Definition unit_array (n : nat) (arr : list R) : Prop :=
  length arr = n /\ Forall unit_interval arr.

(** What the sequential renderer keeps true: both arrays are there, have the
    size of the grid, and the current one is bounded. *)
Definition cpu_inv (s : Cpu.Sim) : Prop :=
  0 <= Cpu.width s /\ 0 <= Cpu.height s /\
  exists cur nxt,
    Cpu.currentGridRef s = Some cur /\ Cpu.nextGridRef s = Some nxt /\
    sized 2 (Cpu.width s) (Cpu.height s) cur /\
    sized 2 (Cpu.width s) (Cpu.height s) nxt /\
    forall x y, on_grid (Cpu.width s) (Cpu.height s) x y ->
      unit_interval (cellA (Cpu.width s) cur x y) /\
      unit_interval (cellB (Cpu.width s) cur x y).

(** What the WebGL renderer keeps true. *)
Definition gpu_inv (gl : Gpu.GL) : Prop :=
  forall i x y,
    unit_interval (Gpu.red (Gpu.texel (Gpu.textures gl i) x y)) /\
    unit_interval (Gpu.green (Gpu.texel (Gpu.textures gl i) x y)).

(** The cells one spot reaches. *)
Definition spot_hit (W H : Z) (c : Z * Z) (k : Z) : Prop :=
  exists dy, dy ∈ seqZ (-3) 7 /\ exists dx, dx ∈ seqZ (-3) 7 /\
    dx * dx + dy * dy <= 9 /\ k = spotIndex W H (fst c) (snd c) dx dy.

(** The cell of flat index [k] is pure A. *)
Definition pureA_at (n : Z) (arr : list R) (k : Z) : Prop :=
  rd arr (k * n) = 1%R /\ rd arr (k * n + 1) = 0%R.

(** *** Notions of the further properties *)

(** The index [i] addresses an element of the array. *)
Definition inside (arr : list R) (i : Z) : Prop :=
  0 <= i < Z.of_nat (length arr).

(** The grids [g] and [g'] agree on the 3x3 toroidal neighbourhood of the
    cell [(x, y)]. *)
Definition agree_around (W H : Z) (g g' : list R) (x y : Z) : Prop :=
  forall dx dy, -1 <= dx <= 1 -> -1 <= dy <= 1 ->
    cellA W g ((x + dx) `mod` W) ((y + dy) `mod` H) =
      cellA W g' ((x + dx) `mod` W) ((y + dy) `mod` H) /\
    cellB W g ((x + dx) `mod` W) ((y + dy) `mod` H) =
      cellB W g' ((x + dx) `mod` W) ((y + dy) `mod` H).

(** The grid [g'] is the grid [g] moved up by [s] rows on the torus. *)
Definition rows_shifted (W H s : Z) (g g' : list R) : Prop :=
  forall x y, on_grid W H x y ->
    cellA W g' x y = cellA W g x ((y + s) `mod` H) /\
    cellB W g' x y = cellB W g x ((y + s) `mod` H).

(** The grid [initGrid] leaves in [currentGridRef] on a [W]x[H] canvas. *)
Definition initialGrid (rand : nat -> R) (W H : Z) : list R :=
  Cpu.seedSpots rand W H (Cpu.fillA (newFloat32Array (W * H * 2))).

(** The grey byte of the cell of flat index [k] in the image of [render]. *)
Definition pixelOf (p : Params) (cur : list R) (k : Z) : Z :=
  ToUint8Clamp (Cpu.final p (rd cur (2 * k))).

(** *** Concrete inputs *)

(** A 2x1 grid of pure B, as an array of the sequential renderer and as the
    texture the WebGL renderer uploads for it. *)
Definition gridB_2x1 : list R := [0; 1; 0; 1]%R.

Definition textureB_2x1 : Gpu.Texture :=
  Gpu.texImage2D 2 1 (Some [0; 1; 0; 1; 0; 1; 0; 1]%R).

(** A 1x1 texture of pure B. *)
Definition textureB_1x1 : Gpu.Texture :=
  Gpu.texImage2D 1 1 (Some [0; 1; 0; 1]%R).

(** The default parameters with the [iterations] slider at 1. *)
Definition oneIteration : Params :=
  {| dA := 1.0; dB := 0.5; feed := 0.03; feedDiff := 0.015;
     killMin := 0.056; killMax := 0.059; iterations := 1;
     feedVariation := 50; sharpness := 0.1; threshold := 0.5 |}.

(** ** Typed arrays: reads after stores *)

Lemma length_wr arr i v : length (wr arr i v) = length arr.
Proof.
  unfold wr. destruct (i <? 0); [reflexivity | apply length_insert].
Qed.

Lemma rd_wr_eq arr i v :
  0 <= i < Z.of_nat (length arr) -> rd (wr arr i v) i = v.
Proof.
  intros Hi. unfold rd, wr.
  destruct (Z.ltb_spec i 0) as [Hneg | _]; [lia |].
  rewrite list_lookup_insert_eq by lia. reflexivity.
Qed.

Lemma rd_wr_ne arr i j v : i <> j -> rd (wr arr i v) j = rd arr j.
Proof.
  intros Hne. unfold rd, wr.
  destruct (Z.ltb_spec j 0) as [_ | Hj]; [reflexivity |].
  destruct (Z.ltb_spec i 0) as [_ | Hi]; [reflexivity |].
  rewrite list_lookup_insert_ne by lia. reflexivity.
Qed.

Lemma sized_wr n W H arr i v : sized n W H arr -> sized n W H (wr arr i v).
Proof. unfold sized. now rewrite length_wr. Qed.

Lemma sized_new n W H : 0 <= W * H * n -> sized n W H (newFloat32Array (W * H * n)).
Proof.
  intros Hn. unfold sized, newFloat32Array. rewrite length_replicate. lia.
Qed.

(** Two arrays of one length with the same reads are the same array. *)
Lemma rd_ext (g1 g2 : list R) :
  length g1 = length g2 ->
  (forall i, 0 <= i < Z.of_nat (length g1) -> rd g1 i = rd g2 i) ->
  g1 = g2.
Proof.
  intros Hlen Hrd. apply list_eq. intros k.
  destruct (Nat.lt_ge_cases k (length g1)) as [Hk | Hk].
  - specialize (Hrd (Z.of_nat k) ltac:(lia)). unfold rd in Hrd.
    destruct (Z.ltb_spec (Z.of_nat k) 0) as [? | _]; [lia |].
    rewrite Nat2Z.id in Hrd.
    destruct (lookup_lt_is_Some_2 g1 k Hk) as [v1 E1].
    destruct (lookup_lt_is_Some_2 g2 k ltac:(lia)) as [v2 E2].
    rewrite E1, E2 in *. simpl in Hrd. congruence.
  - rewrite (lookup_ge_None_2 g1) by lia.
    rewrite (lookup_ge_None_2 g2) by lia. reflexivity.
Qed.

(** The flat index of a cell determines the cell. *)
Lemma cell_index_inj W x y x' y' :
  0 <= x < W -> 0 <= x' < W -> y * W + x = y' * W + x' -> x = x' /\ y = y'.
Proof.
  intros Hx Hx' E.
  assert (y = y') by nia. subst. lia.
Qed.

Lemma cell_index_range W H x y :
  on_grid W H x y -> 0 <= y * W + x < W * H.
Proof. unfold on_grid. intros [Hx Hy]. nia. Qed.

(** Two grids with the same cells are the same array. *)
Lemma grid_ext W H (g1 g2 : list R) :
  0 < W -> sized 2 W H g1 -> sized 2 W H g2 ->
  (forall x y, on_grid W H x y ->
     cellA W g1 x y = cellA W g2 x y /\ cellB W g1 x y = cellB W g2 x y) ->
  g1 = g2.
Proof.
  intros HW L1 L2 Hcells. unfold sized in L1, L2.
  apply rd_ext; [lia |]. intros i Hi. rewrite L1 in Hi.
  assert (Hk : 0 <= i `div` 2 < W * H).
  { split; [apply Z.div_pos; lia | apply Z.div_lt_upper_bound; lia]. }
  assert (Hi2 : i = i `div` 2 * 2 \/ i = i `div` 2 * 2 + 1).
  { pose proof (Z.div_mod i 2 ltac:(lia)).
    pose proof (Z.mod_pos_bound i 2 ltac:(lia)). lia. }
  revert Hk Hi2. generalize (i `div` 2). intros k Hk Hi2.
  assert (Hxy : on_grid W H (k `mod` W) (k `div` W)).
  { unfold on_grid. split; [apply Z.mod_pos_bound; lia |].
    split; [apply Z.div_pos; lia | apply Z.div_lt_upper_bound; lia]. }
  destruct (Hcells _ _ Hxy) as [EA EB]. unfold cellA, cellB in EA, EB.
  assert (Ek : k `div` W * W + k `mod` W = k).
  { rewrite Z.mul_comm. symmetry. apply Z.div_mod. lia. }
  rewrite Ek in EA, EB.
  destruct Hi2 as [-> | ->]; assumption.
Qed.

(** ** The sweep of [computeStep] *)

Section Sweep.

Variables (p : Params) (W H : Z) (cur : list R).

Lemma sized_cell nxt x y : sized 2 W H nxt -> sized 2 W H (Cpu.cell p W H cur nxt x y).
Proof. intros Hs. unfold Cpu.cell. now repeat apply sized_wr. Qed.

(** The loop body writes the clamped values into its own cell ... *)
Lemma cell_own nxt x y :
  sized 2 W H nxt -> on_grid W H x y ->
  settled p W H cur (Cpu.cell p W H cur nxt x y) x y.
Proof.
  intros Hs Hxy. pose proof (cell_index_range _ _ _ _ Hxy) as Hi.
  unfold sized in Hs. unfold settled, cellA, cellB, nextA, nextB, Cpu.cell.
  set (i := (y * W + x) * 2).
  set (n1 := wr nxt i _). set (n2 := wr n1 (i + 1) _).
  assert (L1 : length n1 = length nxt) by apply length_wr.
  assert (L2 : length n2 = length nxt) by (unfold n2; now rewrite length_wr).
  assert (R2 : rd n2 (i + 1) = Cpu.rawB p W H cur x y).
  { unfold n2. apply rd_wr_eq. unfold i. lia. }
  assert (R1 : rd n2 i = Cpu.rawA p W H cur x y).
  { unfold n2. rewrite rd_wr_ne by lia. unfold n1. apply rd_wr_eq. unfold i. lia. }
  split.
  - rewrite rd_wr_ne by lia. rewrite rd_wr_eq by (unfold i; lia).
    now rewrite R1.
  - rewrite rd_wr_eq by (rewrite length_wr; unfold i; lia).
    rewrite rd_wr_ne by lia. now rewrite R2.
Qed.

(** ... and leaves every other cell alone. *)
Lemma cell_frame nxt x y j :
  j <> (y * W + x) * 2 -> j <> (y * W + x) * 2 + 1 ->
  rd (Cpu.cell p W H cur nxt x y) j = rd nxt j.
Proof.
  intros N1 N2. unfold Cpu.cell. now rewrite !rd_wr_ne by lia.
Qed.

Lemma cell_settled nxt x y x' y' :
  sized 2 W H nxt -> on_grid W H x y -> on_grid W H x' y' ->
  settled p W H cur nxt x' y' \/ (x', y') = (x, y) ->
  settled p W H cur (Cpu.cell p W H cur nxt x y) x' y'.
Proof.
  intros Hs Hxy Hxy' [Hold | E].
  - destruct (decide ((x', y') = (x, y))) as [E | NE].
    + injection E as -> ->. now apply cell_own.
    + assert (y' * W + x' <> y * W + x).
      { intros E. destruct Hxy as [? _], Hxy' as [? _].
        destruct (cell_index_inj W x' y' x y) as [-> ->]; auto. }
      destruct Hold as [HA HB]. unfold settled, cellA, cellB in *.
      rewrite !cell_frame by lia. now split.
  - injection E as -> ->. now apply cell_own.
Qed.

(** The inner loop over [x], on any list of columns. *)
Lemma row_settled y xs : forall nxt x' y',
  sized 2 W H nxt -> 0 <= y < H -> Forall (fun x => 0 <= x < W) xs ->
  on_grid W H x' y' ->
  settled p W H cur nxt x' y' \/ (y' = y /\ x' ∈ xs) ->
  settled p W H cur (foldl (fun nxt x => Cpu.cell p W H cur nxt x y) nxt xs) x' y'.
Proof.
  induction xs as [| x xs IH]; intros nxt x' y' Hs Hy Hxs Hxy' Hc; simpl.
  - destruct Hc as [? | [_ Hin]]; [assumption |]. inversion Hin.
  - inversion Hxs as [| ? ? Hx Hxs']; subst.
    apply IH; auto using sized_cell.
    destruct Hc as [Hold | [-> Hin]].
    + left. apply cell_settled; auto. split; assumption.
    + apply elem_of_cons in Hin as [-> | Hin].
      * left. apply cell_own; auto.
      * right. auto.
Qed.

Lemma sized_row y xs : forall nxt,
  sized 2 W H nxt ->
  sized 2 W H (foldl (fun nxt x => Cpu.cell p W H cur nxt x y) nxt xs).
Proof.
  induction xs as [| x xs IH]; intros nxt Hs; simpl; auto using sized_cell.
Qed.

(** The outer loop over [y]. *)
Lemma rows_settled ys : forall nxt x' y',
  sized 2 W H nxt -> Forall (fun y => 0 <= y < H) ys ->
  on_grid W H x' y' ->
  settled p W H cur nxt x' y' \/ y' ∈ ys ->
  settled p W H cur (foldl (fun nxt y =>
                    foldl (fun nxt x => Cpu.cell p W H cur nxt x y) nxt (seqZ 0 W))
                 nxt ys) x' y'.
Proof.
  assert (Hcols : Forall (fun x => 0 <= x < W) (seqZ 0 W)).
  { apply Forall_seqZ. lia. }
  induction ys as [| y ys IH]; intros nxt x' y' Hs Hys Hxy' Hc; simpl.
  - destruct Hc as [? | Hin]; [assumption | inversion Hin].
  - inversion Hys as [| ? ? Hy Hys']; subst.
    apply IH; auto using sized_row.
    destruct Hc as [Hold | Hin].
    + left. apply row_settled; auto.
    + apply elem_of_cons in Hin as [-> | Hin].
      * left. apply row_settled; auto. right. split; [reflexivity |].
        apply elem_of_seqZ. destruct Hxy'. lia.
      * right. assumption.
Qed.

Lemma sized_sweep nxt : sized 2 W H nxt -> sized 2 W H (Cpu.sweep p W H cur nxt).
Proof.
  unfold Cpu.sweep. generalize (seqZ 0 H). intros ys. revert nxt.
  induction ys as [| y ys IH]; intros nxt Hs; simpl; auto using sized_row.
Qed.

(** After the sweep every cell of the next grid holds its clamped update,
    computed from the current grid. *)
Lemma sweep_cell nxt x y :
  sized 2 W H nxt -> on_grid W H x y ->
  cellA W (Cpu.sweep p W H cur nxt) x y = nextA p W H cur x y /\
  cellB W (Cpu.sweep p W H cur nxt) x y = nextB p W H cur x y.
Proof.
  intros Hs Hxy. apply rows_settled; auto.
  - apply Forall_seqZ. lia.
  - right. apply elem_of_seqZ. destruct Hxy. lia.
Qed.

(** The sweep overwrites the whole array: its result does not depend on what
    the array held. *)
Lemma sweep_scratch nxt nxt' :
  0 < W -> sized 2 W H nxt -> sized 2 W H nxt' ->
  Cpu.sweep p W H cur nxt = Cpu.sweep p W H cur nxt'.
Proof.
  intros HW Hs Hs'. apply (grid_ext W H); auto using sized_sweep.
  intros x y Hxy.
  destruct (sweep_cell nxt _ _ Hs Hxy) as [-> ->].
  destruct (sweep_cell nxt' _ _ Hs' Hxy) as [-> ->]. now split.
Qed.

End Sweep.

(** ** Clamping *)

(** Case analysis on the innermost comparison of a [Rmax]/[Rmin] nest. *)
Ltac case_Rle :=
  match goal with
  | |- context [Rle_dec ?a ?b] =>
      lazymatch a with
      | context [Rle_dec] => fail
      | _ => lazymatch b with
             | context [Rle_dec] => fail
             | _ => destruct (Rle_dec a b)
             end
      end
  end.

Ltac clamp_cases := unfold Rmax, Rmin; repeat case_Rle; try lra.

Lemma clamp01_range v : unit_interval (clamp01 v).
Proof.
  unfold unit_interval, clamp01, Rmax, Rmin.
  destruct (Rle_dec 1 v); destruct (Rle_dec 0 _); lra.
Qed.

Lemma clamp01_id v : unit_interval v -> clamp01 v = v.
Proof.
  unfold unit_interval, clamp01, Rmax, Rmin. intros Hv.
  destruct (Rle_dec 1 v); destruct (Rle_dec 0 _); lra.
Qed.

Lemma clamp01_mono u v : (u <= v)%R -> (clamp01 u <= clamp01 v)%R.
Proof.
  unfold clamp01. intros Huv. clamp_cases.
Qed.

(** The shader's [clamp(v, 0.0, 1.0)] is the same function. *)
Lemma glsl_clamp01 v : Gpu.clamp v 0.0 1.0 = clamp01 v.
Proof.
  unfold Gpu.clamp, clamp01. clamp_cases.
Qed.

(** ** Toroidal neighbours *)

(** With an offset of at least [-n] the JavaScript remainder is the
    mathematical modulus, and the wrapped coordinate is on the grid. *)
Lemma wrap_rem n x d :
  0 < n -> 0 <= x < n -> - n <= d ->
  (x + d + n) `rem` n = (x + d) `mod` n /\ 0 <= (x + d) `mod` n < n.
Proof.
  intros Hn Hx Hd.
  rewrite Z.rem_mod_nonneg by lia.
  replace (x + d + n) with (x + d + 1 * n) by lia.
  rewrite Z.mod_add by lia. split; [reflexivity |].
  apply Z.mod_pos_bound. lia.
Qed.

Lemma laplace_stencil W H cur x y :
  on_grid W H x y ->
  Cpu.laplace W H cur x y =
    (stencil (cellA W cur) W H x y, stencil (cellB W cur) W H x y).
Proof.
  intros [Hx Hy].
  assert (HW : 0 < W) by lia. assert (HH : 0 < H) by lia.
  unfold Cpu.laplace. change (seqZ (-1) 3) with [-1; 0; 1]. cbn [foldl].
  unfold Cpu.weight. cbn [Z.eqb orb andb Pos.eqb].
  unfold stencil, cellA, cellB.
  destruct (wrap_rem W x (-1) HW Hx ltac:(lia)) as [-> _].
  destruct (wrap_rem W x 0 HW Hx ltac:(lia)) as [-> _].
  destruct (wrap_rem W x 1 HW Hx ltac:(lia)) as [-> _].
  destruct (wrap_rem H y (-1) HH Hy ltac:(lia)) as [-> _].
  destruct (wrap_rem H y 0 HH Hy ltac:(lia)) as [-> _].
  destruct (wrap_rem H y 1 HH Hy ltac:(lia)) as [-> _].
  reflexivity.
Qed.

(** Every read of the stencil loop is inside the array. *)
Lemma laplace_reads_in_range W H x y dx dy :
  on_grid W H x y -> -1 <= dx <= 1 -> -1 <= dy <= 1 ->
  let idx := ((y + dy + H) `rem` H * W + (x + dx + W) `rem` W) * 2 in
  0 <= idx /\ idx + 1 < W * H * 2.
Proof.
  intros [Hx Hy] Hdx Hdy.
  destruct (wrap_rem W x dx ltac:(lia) Hx ltac:(lia)) as [-> Hpx].
  destruct (wrap_rem H y dy ltac:(lia) Hy ltac:(lia)) as [-> Hpy].
  pose proof (cell_index_range W H _ _ (conj Hpx Hpy)). simpl. lia.
Qed.

Lemma cell_reads_in_range W H x y :
  on_grid W H x y ->
  0 <= (y * W + x) * 2 /\ (y * W + x) * 2 + 1 < W * H * 2.
Proof. intros Hxy. pose proof (cell_index_range W H x y Hxy). lia. Qed.

(** *** Sampling the texture at a pixel centre plus a texel offset *)

Lemma Int_part_half k : Int_part (IZR k + 0.5) = k.
Proof. symmetry. apply Int_part_spec. lra. Qed.

Lemma texture_neighbour (t : Gpu.Texture) W H x y dx dy :
  Gpu.tex_w t = W -> Gpu.tex_h t = H -> 0 < W -> 0 < H ->
  Gpu.texture t
    (((IZR x + 0.5) / IZR W + IZR dx * (1.0 / IZR W))%R,
     ((IZR y + 0.5) / IZR H + IZR dy * (1.0 / IZR H))%R)
  = Gpu.texel t ((x + dx) `mod` W) ((y + dy) `mod` H).
Proof.
  intros Hw Hh HW HH. unfold Gpu.texture. rewrite Hw, Hh. cbn [fst snd].
  assert (IZR W <> 0%R) by (apply not_0_IZR; lia).
  assert (IZR H <> 0%R) by (apply not_0_IZR; lia).
  replace ((((IZR x + 0.5) / IZR W + IZR dx * (1.0 / IZR W)) * IZR W)%R)
    with (IZR (x + dx) + 0.5)%R
    by (rewrite plus_IZR; replace 0.5%R with (1 / 2)%R by lra;
        replace 1.0%R with 1%R by lra; field; assumption).
  replace ((((IZR y + 0.5) / IZR H + IZR dy * (1.0 / IZR H)) * IZR H)%R)
    with (IZR (y + dy) + 0.5)%R
    by (rewrite plus_IZR; replace 0.5%R with (1 / 2)%R by lra;
        replace 1.0%R with 1%R by lra; field; assumption).
  now rewrite !Int_part_half.
Qed.

Lemma texture_centre (t : Gpu.Texture) W H x y :
  Gpu.tex_w t = W -> Gpu.tex_h t = H -> on_grid W H x y ->
  Gpu.texture t (((IZR x + 0.5) / IZR W)%R, ((IZR y + 0.5) / IZR H)%R)
  = Gpu.texel t x y.
Proof.
  intros Hw Hh [Hx Hy].
  pose proof (texture_neighbour t W H x y 0 0 Hw Hh ltac:(lia) ltac:(lia)) as E.
  rewrite !Z.add_0_r, !Z.mod_small in E by lia. rewrite <- E.
  f_equal. f_equal; lra.
Qed.

Lemma gpu_laplace_stencil u (t : Gpu.Texture) W H x y :
  Gpu.tex_w t = W -> Gpu.tex_h t = H -> 0 < W -> 0 < H ->
  Gpu.u_resolution u = (IZR W, IZR H) ->
  Gpu.laplace u t (((IZR x + 0.5) / IZR W)%R, ((IZR y + 0.5) / IZR H)%R) =
    (stencil (fun x y => Gpu.red (Gpu.texel t x y)) W H x y,
     stencil (fun x y => Gpu.green (Gpu.texel t x y)) W H x y).
Proof.
  intros Hw Hh HW HH Hres.
  unfold Gpu.laplace. rewrite Hres. cbn [fst snd].
  change (seqZ (-1) 3) with [-1; 0; 1]. cbn [foldl].
  rewrite !(texture_neighbour t W H) by assumption.
  unfold Gpu.weight. cbn [Z.eqb orb andb Pos.eqb].
  reflexivity.
Qed.

(** A constant field has no Laplacian: the weights sum to zero. *)
Lemma stencil_constant f W H x y c :
  (forall x' y', 0 <= x' < W -> 0 <= y' < H -> f x' y' = c) ->
  0 < W -> 0 < H ->
  stencil f W H x y = 0%R.
Proof.
  intros Hc HW HH. unfold stencil.
  rewrite !Hc by (apply Z.mod_pos_bound; lia). lra.
Qed.

(** ** Boundedness *)

Lemma foldl_invariant {A B} (P : A -> Prop) (f : A -> B -> A) (l : list B) :
  (forall a b, P a -> P (f a b)) -> forall a, P a -> P (foldl f a l).
Proof.
  intros Hf. induction l as [| b l IH]; intros a Ha; simpl; auto.
Qed.

Lemma unit_array_wr n arr i v :
  unit_interval v -> unit_array n arr -> unit_array n (wr arr i v).
Proof.
  intros Hv [Hl Ha]. split; [now rewrite length_wr |].
  unfold wr. destruct (i <? 0); [assumption |]. now apply Forall_insert.
Qed.

Lemma unit_array_rd n arr i : unit_array n arr -> unit_interval (rd arr i).
Proof.
  intros [_ Ha]. unfold rd. destruct (i <? 0); [unfold unit_interval; lra |].
  destruct (arr !! Z.to_nat i) as [v |] eqn:E; simpl.
  - eapply Forall_lookup_1; eauto.
  - unfold unit_interval; lra.
Qed.

Lemma unit_array_new n : unit_array (Z.to_nat n) (newFloat32Array n).
Proof.
  unfold newFloat32Array. split; [apply length_replicate |].
  apply Forall_replicate. unfold unit_interval; lra.
Qed.

Lemma unit_0 : unit_interval 0.
Proof. unfold unit_interval; lra. Qed.

Lemma unit_1 : unit_interval 1.
Proof. unfold unit_interval; lra. Qed.

Create HintDb bounded.

#[local] Hint Resolve unit_0 unit_1 unit_array_wr clamp01_range : bounded.

Lemma cpu_init_unit_array rand W H :
  unit_array (Z.to_nat (W * H * 2))
    (Cpu.seedSpots rand W H (Cpu.fillA (newFloat32Array (W * H * 2)))).
Proof.
  unfold Cpu.seedSpots. apply foldl_invariant.
  - intros arr i Ha. destruct (Cpu.seedCentre rand W H i) as [x y].
    unfold Cpu.spot. apply foldl_invariant; [| assumption].
    intros a dy Hdy. apply foldl_invariant; [| assumption].
    intros a' dx Hdx. unfold Cpu.spotCell.
    destruct (_ <=? _); auto with bounded.
  - unfold Cpu.fillA. generalize (seqZ 0 ((Z.of_nat (length (newFloat32Array (W * H * 2))) + 1) `div` 2)).
    intros ks. apply foldl_invariant; [| apply unit_array_new].
    intros a k Ha. cbv zeta. auto with bounded.
Qed.

Lemma gpu_init_unit_array rand W H :
  unit_array (Z.to_nat (W * H * 4)) (Gpu.initialState rand W H).
Proof.
  unfold Gpu.initialState, Gpu.seedSpots. apply foldl_invariant.
  - intros arr i Ha. destruct (Gpu.seedCentre rand W H i) as [x y].
    unfold Gpu.spot. apply foldl_invariant; [| assumption].
    intros a dy Hdy. apply foldl_invariant; [| assumption].
    intros a' dx Hdx. unfold Gpu.spotCell.
    destruct (_ <=? _); auto with bounded.
  - unfold Gpu.fillA. generalize (seqZ 0 ((Z.of_nat (length (newFloat32Array (W * H * 4))) + 3) `div` 4)).
    intros ks. apply foldl_invariant; [| apply unit_array_new].
    intros a k Ha. cbv zeta. auto 6 with bounded.
Qed.

Lemma cpu_inv_init rand W H c n :
  0 <= W -> 0 <= H -> cpu_inv (Cpu.initGrid rand (Cpu.mkSim W H c n)).
Proof.
  intros HW HH. unfold cpu_inv, Cpu.initGrid.
  cbn [Cpu.width Cpu.height Cpu.currentGridRef Cpu.nextGridRef].
  split; [assumption |]. split; [assumption |].
  do 2 eexists. split; [reflexivity |]. split; [reflexivity |].
  pose proof (cpu_init_unit_array rand W H) as Hu. split; [| split].
  - destruct Hu as [L _]. unfold sized. rewrite L. nia.
  - apply sized_new. nia.
  - intros x y _. split; eapply unit_array_rd, Hu.
Qed.

Lemma cpu_inv_step p s : cpu_inv s -> cpu_inv (Cpu.computeStep p s).
Proof.
  intros (HW & HH & cur & nxt & Ec & En & Hc & Hn & _).
  unfold cpu_inv, Cpu.computeStep. rewrite Ec, En.
  cbn [Cpu.width Cpu.height Cpu.currentGridRef Cpu.nextGridRef].
  split; [assumption |]. split; [assumption |].
  do 2 eexists. split; [reflexivity |]. split; [reflexivity |].
  split; [now apply sized_sweep |]. split; [assumption |].
  intros x y Hxy.
  destruct (sweep_cell p _ _ cur nxt x y Hn Hxy) as [-> ->].
  split; apply clamp01_range.
Qed.

Lemma cpu_reachable_inv s : cpu_reachable s -> cpu_inv s.
Proof.
  induction 1 as [rand W H c n HW HH | p s _ IH].
  - now apply cpu_inv_init.
  - now apply cpu_inv_step.
Qed.

(** The shader clamps whatever it computed. *)
Lemma computeShader_bounded u t fc :
  unit_interval (Gpu.red (Gpu.computeShader u t fc)) /\
  unit_interval (Gpu.green (Gpu.computeShader u t fc)).
Proof.
  unfold Gpu.computeShader. destruct (Gpu.laplace u t _) as [lA lB].
  cbn [Gpu.red Gpu.green]. rewrite !glsl_clamp01.
  split; apply clamp01_range.
Qed.

Lemma gpu_inv_init rand W H : gpu_inv (Gpu.initWebGL rand W H).
Proof.
  intros i x y. unfold Gpu.textures, Gpu.initWebGL.
  destruct (i =? 0); cbn [Gpu.texture0 Gpu.texture1].
  - unfold Gpu.initializeTexture, Gpu.texImage2D. cbn [Gpu.texel Gpu.red Gpu.green].
    split; eapply unit_array_rd, gpu_init_unit_array.
  - unfold Gpu.texImage2D. cbn [Gpu.texel Gpu.red Gpu.green].
    split; apply unit_0.
Qed.

Lemma gpu_inv_pingPong p gl i : gpu_inv gl -> gpu_inv (Gpu.pingPong p gl i).
Proof.
  intros Hgl j x y. unfold Gpu.pingPong, Gpu.renderInto, Gpu.textures.
  destruct ((i + 1) `rem` 2 =? 0); destruct (j =? 0) eqn:Ej;
    cbn [Gpu.texture0 Gpu.texture1 Gpu.drawArrays Gpu.texel];
    try apply computeShader_bounded.
  - specialize (Hgl j x y). unfold Gpu.textures in Hgl. now rewrite Ej in Hgl.
  - specialize (Hgl j x y). unfold Gpu.textures in Hgl. now rewrite Ej in Hgl.
Qed.

Lemma gpu_reachable_inv gl : gpu_reachable gl -> gpu_inv gl.
Proof.
  induction 1 as [rand W H | p gl _ IH].
  - apply gpu_inv_init.
  - unfold Gpu.computeStep. apply foldl_invariant; [| assumption].
    intros a i. apply gpu_inv_pingPong.
Qed.

(** One step bounds every cell, whatever the current grid held. *)
Lemma step_bounded p W H cur nxt x y :
  sized 2 W H nxt -> on_grid W H x y ->
  unit_interval (cellA W (Cpu.sweep p W H cur nxt) x y) /\
  unit_interval (cellB W (Cpu.sweep p W H cur nxt) x y).
Proof.
  intros Hs Hxy. destruct (sweep_cell p W H cur nxt x y Hs Hxy) as [-> ->].
  split; apply clamp01_range.
Qed.



(** ** The Laplacian of a uniform field *)



(** ** The driver of the sequential renderer *)

Lemma stepGrid_cell p W H cur x y :
  0 <= W -> 0 <= H -> on_grid W H x y ->
  cellA W (stepGrid p W H cur) x y = nextA p W H cur x y /\
  cellB W (stepGrid p W H cur) x y = nextB p W H cur x y.
Proof.
  intros HW HH Hxy. apply sweep_cell; [| assumption]. apply sized_new. nia.
Qed.

Lemma sized_stepGrid p W H cur :
  0 <= W -> 0 <= H -> sized 2 W H (stepGrid p W H cur).
Proof. intros HW HH. apply sized_sweep, sized_new. nia. Qed.

(** [computeStep] puts the step of the current grid into [currentGridRef]
    and recycles the old current grid as the next scratch array. *)
Lemma computeStep_stepGrid p s cur nxt :
  0 < Cpu.width s -> 0 <= Cpu.height s ->
  Cpu.currentGridRef s = Some cur -> Cpu.nextGridRef s = Some nxt ->
  sized 2 (Cpu.width s) (Cpu.height s) nxt ->
  Cpu.computeStep p s =
    Cpu.mkSim (Cpu.width s) (Cpu.height s)
      (Some (stepGrid p (Cpu.width s) (Cpu.height s) cur)) (Some cur).
Proof.
  intros HW HH Ec En Hs. unfold Cpu.computeStep. rewrite Ec, En.
  unfold stepGrid. f_equal. f_equal.
  apply sweep_scratch; [assumption | assumption |]. apply sized_new. nia.
Qed.

(** [n] calls of [computeStep] leave the [n]-fold step of the grid in
    [currentGridRef]. *)
Lemma computeStep_iter p W H cur nxt n :
  0 < W -> 0 <= H -> sized 2 W H cur -> sized 2 W H nxt ->
  exists nxt',
    Nat.iter n (Cpu.computeStep p) (Cpu.mkSim W H (Some cur) (Some nxt)) =
      Cpu.mkSim W H (Some (Nat.iter n (stepGrid p W H) cur)) (Some nxt') /\
    sized 2 W H nxt' /\ sized 2 W H (Nat.iter n (stepGrid p W H) cur).
Proof.
  intros HW HH Hc Hn. induction n as [| n (nxt' & E & Hn' & Hc')].
  - exists nxt. simpl. auto.
  - exists (Nat.iter n (stepGrid p W H) cur). rewrite !Nat.iter_succ, E.
    erewrite computeStep_stepGrid; cbn [Cpu.width Cpu.height]; eauto.
    split; [reflexivity |]. split; [assumption |].
    apply sized_stepGrid; lia.
Qed.

(** ** One kernel, two renderers *)

Lemma stencil_ext f g W H x y :
  (forall x' y', 0 <= x' < W -> 0 <= y' < H -> f x' y' = g x' y') ->
  0 < W -> 0 < H ->
  stencil f W H x y = stencil g W H x y.
Proof.
  intros E HW HH. unfold stencil.
  now rewrite !E by (apply Z.mod_pos_bound; lia).
Qed.

(** The sequential kernel is the step kernel under the kill rate of the
    cell's column. *)
Lemma cpu_kernel p W H cur x y :
  on_grid W H x y ->
  nextA p W H cur x y = kernelA p (cellA W cur) (cellB W cur) W H x y /\
  nextB p W H cur x y =
    kernelB p (Cpu.killRate p W x) (cellA W cur) (cellB W cur) W H x y.
Proof.
  intros Hxy. unfold nextA, nextB, Cpu.rawA, Cpu.rawB, kernelA, kernelB.
  rewrite laplace_stencil by assumption. split; reflexivity.
Qed.

Lemma gpu_feedRate p gl : Gpu.feedRate (Gpu.uniforms p gl) = Cpu.feedRate p.
Proof.
  unfold Gpu.feedRate, Cpu.feedRate, Gpu.uniforms.
  cbn [Gpu.u_feed Gpu.u_feedVariation Gpu.u_feedDiff].
  replace 50.0%R with 50%R by lra. replace 100.0%R with 100%R by lra.
  reflexivity.
Qed.

(** The shader is the step kernel under the kill rate [killMin], in every
    column. *)
Lemma gpu_kernel p W H t x y :
  Gpu.tex_w t = W -> Gpu.tex_h t = H -> on_grid W H x y ->
  redField (stepTexture p W H t) x y =
    kernelA p (redField t) (greenField t) W H x y /\
  greenField (stepTexture p W H t) x y =
    kernelB p (killMin p) (redField t) (greenField t) W H x y.
Proof.
  intros Hw Hh Hxy.
  assert (HW : 0 < W) by (destruct Hxy; lia).
  assert (HH : 0 < H) by (destruct Hxy; lia).
  change (stepTexture p W H t)
    with (Gpu.drawArrays W H
            (Gpu.computeShader (Gpu.uniforms p (Gpu.mkGL W H t t)) t)).
  unfold kernelA, kernelB, redField, greenField, Gpu.drawArrays.
  cbn [Gpu.texel]. unfold Gpu.computeShader.
  rewrite gpu_feedRate.
  cbn [Gpu.uniforms Gpu.u_resolution Gpu.canvas_w Gpu.canvas_h fst snd].
  rewrite (gpu_laplace_stencil _ t W H) by (assumption || reflexivity).
  rewrite (texture_centre t W H) by assumption.
  unfold Gpu.killRate, Gpu.uniforms.
  cbn [Gpu.red Gpu.green Gpu.u_kill Gpu.u_dA Gpu.u_dB].
  rewrite !glsl_clamp01. replace 1.0%R with 1%R by lra.
  split; f_equal; ring.
Qed.

Lemma pingPong_step p gl i :
  Gpu.pingPong p gl i =
    Gpu.renderInto gl ((i + 1) `rem` 2)
      (stepTexture p (Gpu.canvas_w gl) (Gpu.canvas_h gl)
         (Gpu.textures gl (i `rem` 2))).
Proof. reflexivity. Qed.

Lemma killRate_flat p W x : Cpu.killRate (flatKill p) W x = killMin p.
Proof. unfold Cpu.killRate, flatKill. cbn [killMin killMax]. ring. Qed.

(** The shader refines the sequential kernel of the flattened parameters:
    if the texture holds the grid, the drawn texture holds the stepped
    grid. *)
Lemma holds_step p W H t g :
  0 < W -> 0 < H -> holds W H t g ->
  holds W H (stepTexture p W H t) (stepGrid (flatKill p) W H g).
Proof.
  intros HW HH (Hw & Hh & Hcells). split; [reflexivity |]. split; [reflexivity |].
  intros x y Hxy.
  destruct (gpu_kernel p W H t x y Hw Hh Hxy) as [EA EB].
  unfold redField, greenField in EA, EB. rewrite EA, EB.
  destruct (stepGrid_cell (flatKill p) W H g x y ltac:(lia) ltac:(lia) Hxy)
    as [-> ->].
  destruct (cpu_kernel (flatKill p) W H g x y Hxy) as [-> ->].
  rewrite killRate_flat. unfold kernelA, kernelB.
  destruct (Hcells x y Hxy) as [Ea Eb]. unfold redField, greenField.
  rewrite Ea, Eb.
  rewrite (stencil_ext (fun x y => Gpu.red (Gpu.texel t x y)) (cellA W g)),
          (stencil_ext (fun x y => Gpu.green (Gpu.texel t x y)) (cellB W g));
    try assumption.
  - split; reflexivity.
  - intros x' y' Hx' Hy'. now apply Hcells.
  - intros x' y' Hx' Hy'. now apply Hcells.
Qed.

(** When the kill-rate range is a point the two renderers agree: the drawn
    texture holds the grid the sequential step computes. *)
Lemma renderers_agree_on_flat_range p W H t g :
  0 < W -> 0 < H -> killMax p = killMin p -> holds W H t g ->
  holds W H (stepTexture p W H t) (stepGrid p W H g).
Proof.
  intros HW HH Hk Hh.
  replace p with (flatKill p) at 2; [now apply holds_step |].
  destruct p; unfold flatKill; cbn in *. now subst.
Qed.

(** The update of a cell of a uniform grid: no diffusion, reaction only. *)
Lemma kernel_of_uniform p kill fa fb W H x y ca cb :
  (forall x' y', 0 <= x' < W -> 0 <= y' < H ->
     fa x' y' = ca /\ fb x' y' = cb) ->
  on_grid W H x y ->
  kernelA p fa fb W H x y =
    clamp01 (ca - ca * cb * cb + Cpu.feedRate p * (1 - ca)) /\
  kernelB p kill fa fb W H x y =
    clamp01 (cb + ca * cb * cb - (Cpu.feedRate p + kill) * cb).
Proof.
  intros Hu [Hx Hy]. unfold kernelA, kernelB.
  destruct (Hu x y Hx Hy) as [-> ->].
  rewrite (stencil_constant fa W H x y ca), (stencil_constant fb W H x y cb);
    try lia.
  - split; f_equal; ring.
  - intros x' y' Hx' Hy'. now apply Hu.
  - intros x' y' Hx' Hy'. now apply Hu.
Qed.

(** ** The uniform grid of pure A *)

(** On the uniform grid of pure A nothing diffuses and nothing reacts. *)
Lemma kernel_of_pure_A p kill fa fb W H x y :
  (forall x' y', 0 <= x' < W -> 0 <= y' < H ->
     fa x' y' = 1%R /\ fb x' y' = 0%R) ->
  on_grid W H x y ->
  kernelA p fa fb W H x y = 1%R /\ kernelB p kill fa fb W H x y = 0%R.
Proof.
  intros Hu Hxy.
  destruct (kernel_of_uniform p kill fa fb W H x y 1 0 Hu Hxy) as [-> ->].
  split.
  - replace (1 - _ + _)%R with 1%R by ring. apply clamp01_id, unit_1.
  - replace (0 + _ - _)%R with 0%R by ring. apply clamp01_id, unit_0.
Qed.

Lemma next_of_pure_A p W H g x y :
  (forall x' y', on_grid W H x' y' ->
     cellA W g x' y' = 1%R /\ cellB W g x' y' = 0%R) ->
  on_grid W H x y ->
  nextA p W H g x y = 1%R /\ nextB p W H g x y = 0%R.
Proof.
  intros Hu Hxy. destruct (cpu_kernel p W H g x y Hxy) as [-> ->].
  apply kernel_of_pure_A; [| assumption].
  intros x' y' Hx' Hy'. apply Hu. split; assumption.
Qed.

Lemma stepGrid_of_pure_A p W H g :
  0 < W -> 0 < H -> sized 2 W H g ->
  (forall x y, on_grid W H x y ->
     cellA W g x y = 1%R /\ cellB W g x y = 0%R) ->
  stepGrid p W H g = g.
Proof.
  intros HW HH Hs Hu. apply (grid_ext W H); try assumption.
  - apply sized_stepGrid; lia.
  - intros x y Hxy.
    destruct (stepGrid_cell p W H g x y ltac:(lia) ltac:(lia) Hxy) as [-> ->].
    destruct (next_of_pure_A p W H g x y Hu Hxy) as [-> ->].
    destruct (Hu x y Hxy) as [-> ->]. now split.
Qed.

Lemma stepTexture_iter_size p W H t n :
  Gpu.tex_w t = W -> Gpu.tex_h t = H ->
  Gpu.tex_w (Nat.iter n (stepTexture p W H) t) = W /\
  Gpu.tex_h (Nat.iter n (stepTexture p W H) t) = H.
Proof.
  intros Hw Hh. destruct n as [| n]; [now split |].
  rewrite Nat.iter_succ. now split.
Qed.



(** ** The ping-pong loop of the WebGL renderer *)

Lemma textures_renderInto gl i j t :
  Gpu.textures (Gpu.renderInto gl i t) j =
    if Bool.eqb (i =? 0) (j =? 0) then t else Gpu.textures gl j.
Proof.
  unfold Gpu.textures, Gpu.renderInto.
  destruct (i =? 0), (j =? 0); reflexivity.
Qed.

Lemma canvas_renderInto gl i t :
  Gpu.canvas_w (Gpu.renderInto gl i t) = Gpu.canvas_w gl /\
  Gpu.canvas_h (Gpu.renderInto gl i t) = Gpu.canvas_h gl.
Proof. unfold Gpu.renderInto. destruct (i =? 0); now split. Qed.

(** After [n] iterations of the loop, texture [n % 2] holds the [n]-fold
    step of texture 0, and the other texture the [(n-1)]-fold step. *)
Lemma pingPong_run p gl n :
  let W := Gpu.canvas_w gl in
  let H := Gpu.canvas_h gl in
  let gl' := foldl (Gpu.pingPong p) gl (seqZ 0 (Z.of_nat n)) in
  Gpu.canvas_w gl' = W /\ Gpu.canvas_h gl' = H /\
  Gpu.textures gl' (Z.of_nat n `rem` 2) =
    Nat.iter n (stepTexture p W H) (Gpu.texture0 gl) /\
  Gpu.textures gl' ((Z.of_nat n + 1) `rem` 2) =
    match n with
    | O => Gpu.texture1 gl
    | S m => Nat.iter m (stepTexture p W H) (Gpu.texture0 gl)
    end.
Proof.
  cbv zeta. induction n as [| n (Hw & Hh & Hcur & Hprev)].
  - repeat split; reflexivity.
  - rewrite seqZ_S, foldl_snoc, Z.add_0_l, pingPong_step.
    set (gl' := foldl (Gpu.pingPong p) gl (seqZ 0 (Z.of_nat n))) in *.
    destruct (canvas_renderInto gl' ((Z.of_nat n + 1) `rem` 2)
                (stepTexture p (Gpu.canvas_w gl') (Gpu.canvas_h gl')
                   (Gpu.textures gl' (Z.of_nat n `rem` 2)))) as [-> ->].
    rewrite !textures_renderInto, Hw, Hh, Hcur.
    replace (Z.of_nat (S n)) with (Z.of_nat n + 1) by lia.
    assert (Hpar : Z.of_nat n `rem` 2 = 0 \/ Z.of_nat n `rem` 2 = 1).
    { rewrite Z.rem_mod_nonneg by lia.
      pose proof (Z.mod_pos_bound (Z.of_nat n) 2). lia. }
    assert (Hnext : (Z.of_nat n + 1) `rem` 2 = 1 - Z.of_nat n `rem` 2).
    { rewrite !Z.rem_mod_nonneg by lia.
      rewrite Z.add_mod by lia. rewrite Z.rem_mod_nonneg in Hpar by lia.
      destruct Hpar as [-> | ->]; reflexivity. }
    assert (Hnext2 : (Z.of_nat n + 1 + 1) `rem` 2 = Z.of_nat n `rem` 2).
    { rewrite !Z.rem_mod_nonneg by lia.
      replace (Z.of_nat n + 1 + 1) with (Z.of_nat n + 1 * 2) by lia.
      now rewrite Z.mod_add by lia. }
    rewrite Hnext2, Hnext.
    repeat split; try assumption.
    + destruct Hpar as [-> | ->]; reflexivity.
    + destruct Hpar as [E | E]; rewrite E; cbn; rewrite <- Hcur, E; reflexivity.
Qed.

(** The texture [render] displays after a batch of [N >= 1] iterations
    holds the [(N-1)]-fold step of texture 0; the [N]-fold step is in the
    other texture. *)
Lemma displayed_lags_one_step p gl :
  1 <= iterations p ->
  let W := Gpu.canvas_w gl in
  let H := Gpu.canvas_h gl in
  let N := Z.to_nat (iterations p) in
  Gpu.displayed p (Gpu.computeStep p gl) =
    Nat.iter (N - 1) (stepTexture p W H) (Gpu.texture0 gl) /\
  Gpu.textures (Gpu.computeStep p gl) (iterations p `rem` 2) =
    Nat.iter N (stepTexture p W H) (Gpu.texture0 gl).
Proof.
  intros HN. cbv zeta. unfold Gpu.displayed, Gpu.computeStep.
  destruct (pingPong_run p gl (Z.to_nat (iterations p)))
    as (_ & _ & Hcur & Hprev).
  rewrite Z2Nat.id in Hcur, Hprev by lia.
  split; [| exact Hcur].
  rewrite Hprev.
  destruct (Z.to_nat (iterations p)) as [| m] eqn:E; [lia |].
  now rewrite Nat.sub_succ, Nat.sub_0_r.
Qed.

(** The sequential renderer runs the [N] steps and renders their result. *)
Lemma cpu_update_runs_the_steps p W H cur nxt :
  0 < W -> 0 <= H -> sized 2 W H cur -> sized 2 W H nxt ->
  let s' := fst (Cpu.update p (Cpu.mkSim W H (Some cur) (Some nxt))) in
  Cpu.currentGridRef s' =
    Some (Nat.iter (Z.to_nat (iterations p)) (stepGrid p W H) cur) /\
  snd (Cpu.update p (Cpu.mkSim W H (Some cur) (Some nxt))) = Cpu.render p s'.
Proof.
  intros HW HH Hc Hn. cbv zeta. unfold Cpu.update, Cpu.steps. cbn [fst snd].
  destruct (computeStep_iter p W H cur nxt (Z.to_nat (iterations p))
              HW HH Hc Hn) as (nxt' & -> & _ & _).
  split; reflexivity.
Qed.

(** ** The two renderers on concrete inputs *)

Lemma feedRate_default : Cpu.feedRate defaultParams = 0.03%R.
Proof. unfold Cpu.feedRate, defaultParams. cbn [feed feedVariation feedDiff]. lra. Qed.

Lemma feedRate_oneIteration : Cpu.feedRate oneIteration = 0.03%R.
Proof. unfold Cpu.feedRate, oneIteration. cbn [feed feedVariation feedDiff]. lra. Qed.

Lemma killRate_default_2_1 : Cpu.killRate defaultParams 2 1 = 0.0575%R.
Proof. unfold Cpu.killRate, defaultParams. cbn [killMin killMax]. lra. Qed.

(** Reads of a literal array at a literal index. *)
Ltac eval_rd :=
  repeat match goal with
         | |- context [rd ?l ?i] =>
             let j := eval vm_compute in (Z.to_nat i) in
             let v := eval cbv [nth] in (nth j l 0%R) in
             change (rd l i) with v
         end.

(** A 3x3 grid of pure A with one cell of pure B in the middle: the
    Laplacian at the seed, and one step of the seed under the default
    parameters. *)
Example laplace_of_a_single_seed :
  Cpu.laplace 3 3
    [1; 0; 1; 0; 1; 0;
     1; 0; 0; 1; 1; 0;
     1; 0; 1; 0; 1; 0]%R 1 1 = (1%R, (-1)%R).
Proof.
  rewrite laplace_stencil by (unfold on_grid; lia).
  unfold stencil, cellA, cellB. eval_rd.
  f_equal; lra.
Qed.

Example one_step_of_a_single_seed :
  nextA defaultParams 3 3
    [1; 0; 1; 0; 1; 0;
     1; 0; 0; 1; 1; 0;
     1; 0; 1; 0; 1; 0]%R 1 1 = 1%R /\
  nextB defaultParams 3 3
    [1; 0; 1; 0; 1; 0;
     1; 0; 0; 1; 1; 0;
     1; 0; 1; 0; 1; 0]%R 1 1 = 0.413%R.
Proof.
  unfold nextA, nextB, Cpu.rawA, Cpu.rawB.
  rewrite laplace_of_a_single_seed. cbn [fst snd]. eval_rd.
  rewrite feedRate_default.
  unfold Cpu.killRate, defaultParams. cbn [dA dB killMin killMax].
  split.
  - replace (0 + _)%R with 1.03%R by lra. unfold clamp01. clamp_cases.
  - replace (1 + _)%R with 0.413%R by lra.
    apply clamp01_id. unfold unit_interval; lra.
Qed.

Lemma gridB_2x1_cells x y :
  0 <= x < 2 -> 0 <= y < 1 ->
  cellA 2 gridB_2x1 x y = 0%R /\ cellB 2 gridB_2x1 x y = 1%R.
Proof.
  intros Hx Hy. assert (y = 0) as -> by lia.
  assert (x = 0 \/ x = 1) as [-> | ->] by lia; split; reflexivity.
Qed.

Lemma textureB_2x1_holds : holds 2 1 textureB_2x1 gridB_2x1.
Proof.
  split; [reflexivity |]. split; [reflexivity |].
  intros x y [Hx Hy]. assert (y = 0) as -> by lia.
  assert (x = 0 \/ x = 1) as [-> | ->] by lia; split; reflexivity.
Qed.

(** C2.  The two renderers do not compute the same next state.  On the 2x1
    grid of pure B under the default parameters, the sequential step leaves
    [b = 0.9125] in the cell of column 1 (kill rate 0.0575 there), the
    shader leaves [b = 0.914] (kill rate [killMin = 0.056] in every
    column), although the texture holds the same grid. *)
Theorem renderers_disagree_on_kill_gradient :
  holds 2 1 textureB_2x1 gridB_2x1 /\
  (exists g',
     Cpu.currentGridRef
       (Cpu.computeStep defaultParams
          (Cpu.mkSim 2 1 (Some gridB_2x1) (Some (newFloat32Array 4))))
     = Some g' /\
     cellB 2 g' 1 0 = 0.9125%R) /\
  greenField
    (Gpu.texture1
       (Gpu.pingPong defaultParams
          (Gpu.mkGL 2 1 textureB_2x1 (Gpu.texImage2D 2 1 None)) 0)) 1 0
  = 0.914%R.
Proof.
  split; [exact textureB_2x1_holds |]. split.
  - eexists. split; [reflexivity |].
    cbn [Cpu.width Cpu.height].
    assert (Hxy : on_grid 2 1 1 0) by (unfold on_grid; lia).
    destruct (sweep_cell defaultParams 2 1 gridB_2x1 (newFloat32Array 4) 1 0
                eq_refl Hxy) as [_ ->].
    destruct (cpu_kernel defaultParams 2 1 gridB_2x1 1 0 Hxy) as [_ ->].
    destruct (kernel_of_uniform defaultParams (Cpu.killRate defaultParams 2 1)
                (cellA 2 gridB_2x1) (cellB 2 gridB_2x1) 2 1 1 0 0 1
                gridB_2x1_cells Hxy) as [_ ->].
    rewrite feedRate_default, killRate_default_2_1.
    rewrite clamp01_id; unfold unit_interval; lra.
  - rewrite pingPong_step.
    change (Gpu.texture1 (Gpu.renderInto _ _ _))
      with (stepTexture defaultParams 2 1 textureB_2x1).
    assert (Hxy : on_grid 2 1 1 0) by (unfold on_grid; lia).
    destruct (gpu_kernel defaultParams 2 1 textureB_2x1 1 0 eq_refl eq_refl Hxy)
      as [_ E].
    rewrite E.
    destruct (kernel_of_uniform defaultParams (killMin defaultParams)
                (redField textureB_2x1) (greenField textureB_2x1) 2 1 1 0 0 1)
      as [_ ->]; [| assumption |].
    + intros x' y' Hx' Hy'.
      destruct textureB_2x1_holds as (_ & _ & Hc).
      destruct (Hc x' y' (conj Hx' Hy')) as [Ea Eb].
      unfold redField, greenField. rewrite Ea, Eb.
      now apply gridB_2x1_cells.
    + rewrite feedRate_default. unfold defaultParams. cbn [killMin].
      rewrite clamp01_id; unfold unit_interval; lra.
Qed.

(** The sequential kernel resolves the kill rate of a cell from its column:
    [killMin + (x / W) (killMax - killMin)], whatever the row; [killMin] in
    column 0. *)
Lemma cpu_kill_rate_gradient p W H cur x y :
  on_grid W H x y ->
  nextB p W H cur x y =
    kernelB p (killMin p + IZR x / IZR W * (killMax p - killMin p))%R
      (cellA W cur) (cellB W cur) W H x y /\
  Cpu.killRate p W 0 = killMin p /\
  Cpu.killRate p W (W - 1) =
    (killMin p + IZR (W - 1) / IZR W * (killMax p - killMin p))%R.
Proof.
  intros Hxy. split; [apply cpu_kernel; assumption |].
  split; [| reflexivity]. unfold Cpu.killRate, Rdiv. ring.
Qed.

(** C3.  The shader does not resolve the kill rate from the column.  Under
    the default parameters on a canvas 2 wide, the kill rate of the shader
    is [killMin = 0.056] where the formula gives 0.0575 in column 1, and
    0.056 is the rate that enters the update of [b] there. *)
Theorem shader_kill_rate_ignores_column :
  Gpu.killRate
    (Gpu.uniforms defaultParams
       (Gpu.mkGL 2 1 textureB_2x1 (Gpu.texImage2D 2 1 None))) = 0.056%R /\
  (killMin defaultParams
   + IZR 1 / IZR 2 * (killMax defaultParams - killMin defaultParams))%R
  = 0.0575%R /\
  greenField (stepTexture defaultParams 2 1 textureB_2x1) 1 0 =
    kernelB defaultParams 0.056 (redField textureB_2x1)
      (greenField textureB_2x1) 2 1 1 0.
Proof.
  split; [reflexivity |]. split.
  - unfold defaultParams. cbn [killMin killMax]. lra.
  - apply (gpu_kernel defaultParams 2 1 textureB_2x1 1 0); try reflexivity.
    unfold on_grid. lia.
Qed.

Lemma textureB_1x1_cells x y :
  0 <= x < 1 -> 0 <= y < 1 ->
  redField textureB_1x1 x y = 0%R /\ greenField textureB_1x1 x y = 1%R.
Proof.
  intros Hx Hy. assert (x = 0) as -> by lia. assert (y = 0) as -> by lia.
  split; reflexivity.
Qed.

(** C4.  The WebGL renderer does not display the result of the last
    iteration.  With [iterations = 1], after [computeStep] the texture
    [render] binds is still texture 0, the state before the request: its
    cell holds [a = 0] where one step of the kernel gives [a = 0.03]; the
    stepped state lies in texture 1, which [render] does not read. *)
Theorem webgl_render_reads_the_previous_texture :
  let gl := Gpu.mkGL 1 1 textureB_1x1 (Gpu.texImage2D 1 1 None) in
  let gl' := fst (Gpu.update oneIteration gl) in
  Gpu.displayed oneIteration gl' = textureB_1x1 /\
  Gpu.texture1 gl' = stepTexture oneIteration 1 1 textureB_1x1 /\
  redField (Gpu.displayed oneIteration gl') 0 0 = 0%R /\
  redField (stepTexture oneIteration 1 1 textureB_1x1) 0 0 = 0.03%R.
Proof.
  cbv zeta. split; [reflexivity |]. split; [reflexivity |].
  split; [reflexivity |].
  assert (Hxy : on_grid 1 1 0 0) by (unfold on_grid; lia).
  destruct (gpu_kernel oneIteration 1 1 textureB_1x1 0 0 eq_refl eq_refl Hxy)
    as [-> _].
  destruct (kernel_of_uniform oneIteration 0 (redField textureB_1x1)
              (greenField textureB_1x1) 1 1 0 0 0 1 textureB_1x1_cells Hxy)
    as [-> _].
  rewrite feedRate_oneIteration.
  rewrite clamp01_id; unfold unit_interval; lra.
Qed.

(** ** The intensity mapper *)

Lemma power01_range m s :
  (0 <= m <= 1)%R -> (0 < s)%R -> (0 <= power01 m s <= 1)%R.
Proof.
  intros Hm Hs. unfold power01. destruct (Req_dec_T m 0) as [_ | Hne]; [lra |].
  split.
  - left. apply exp_pos.
  - replace 1%R with (Rpower 1 s).
    + apply Rle_Rpower_l; lra.
    + unfold Rpower. rewrite ln_1, Rmult_0_r. apply exp_0.
Qed.

Lemma power01_mono m1 m2 s :
  (0 <= m1 <= m2)%R -> (0 < s)%R -> (power01 m1 s <= power01 m2 s)%R.
Proof.
  intros Hm Hs. unfold power01.
  destruct (Req_dec_T m1 0) as [E1 | N1]; destruct (Req_dec_T m2 0) as [E2 | N2].
  - lra.
  - left. apply exp_pos.
  - lra.
  - apply Rle_Rpower_l; lra.
Qed.

Lemma power01_1 m : (0 <= m)%R -> power01 m 1 = m.
Proof.
  intros Hm. unfold power01. destruct (Req_dec_T m 0) as [-> | Hne]; [reflexivity |].
  apply Rpower_1. lra.
Qed.

Lemma Math_pow_01 m s :
  (0 <= m)%R -> (0 < s)%R -> Math_pow (Fin m) s = Fin (power01 m s).
Proof.
  intros Hm Hs. unfold Math_pow, power01.
  destruct (Req_dec_T s 0) as [? | _]; [lra |].
  destruct (Req_dec_T m 0) as [_ | Hne].
  - destruct (Rlt_dec 0 s); [reflexivity | lra].
  - destruct (Rlt_dec 0 m); [reflexivity | lra].
Qed.

Lemma glsl_pow_01 m s :
  (0 <= m)%R -> (0 < s)%R -> Gpu.glsl_pow m s = Some (power01 m s).
Proof.
  intros Hm Hs. unfold Gpu.glsl_pow, power01.
  destruct (Rlt_dec m 0); [lra |].
  destruct (Req_dec_T m 0); [| reflexivity].
  destruct (Rlt_dec 0 s); [reflexivity | lra].
Qed.

(** Below the degenerate threshold both mappers compute
    [clamp((a - threshold) / (0.9 - threshold), 0, 1) ^ sharpness]. *)
Lemma cpu_mapper_formula p a :
  (threshold p < 0.9)%R ->
  Cpu.mapped p a = Fin (clamp01 ((a - threshold p) / (0.9 - threshold p))) /\
  ((0 < sharpness p)%R ->
   Cpu.sharpValue p a =
     Fin (power01 (clamp01 ((a - threshold p) / (0.9 - threshold p)))
            (sharpness p))).
Proof.
  intros Ht.
  assert (E : Cpu.mapped p a =
              Fin (clamp01 ((a - threshold p) / (0.9 - threshold p)))).
  { unfold Cpu.mapped, Cpu.gs_map, js_div.
    destruct (Req_dec_T (0.9 - threshold p) 0); [lra | reflexivity]. }
  split; [exact E |]. intros Hs. unfold Cpu.sharpValue. rewrite E.
  apply Math_pow_01; [apply clamp01_range | assumption].
Qed.

Lemma gpu_mapper_formula t s a :
  (t < 0.9)%R ->
  Gpu.mapped t a = Some (clamp01 ((a - t) / (0.9 - t))) /\
  ((0 < s)%R ->
   Gpu.sharp t s a = Some (power01 (clamp01 ((a - t) / (0.9 - t))) s)).
Proof.
  intros Ht.
  assert (E : Gpu.mapped t a = Some (clamp01 ((a - t) / (0.9 - t)))).
  { unfold Gpu.mapped, Gpu.glsl_div.
    destruct (Req_dec_T (0.9 - t) 0); [lra |]. now rewrite glsl_clamp01. }
  split; [exact E |]. intros Hs. unfold Gpu.sharp. rewrite E.
  apply glsl_pow_01; [apply clamp01_range | assumption].
Qed.





(** *** The degenerate threshold *)

Lemma Rpower_base_1 s : Rpower 1 s = 1%R.
Proof. unfold Rpower. rewrite ln_1, Rmult_0_r. apply exp_0. Qed.

Lemma Int_part_IZR k : Int_part (IZR k) = k.
Proof. symmetry. apply Int_part_spec. lra. Qed.




(** ** Initialisation: the seed spots *)

(** The JavaScript remainder of a wrapped spot coordinate is the modulus,
    except on a grid 2 wide for the offset -3 from column 0, where it is
    -1. *)
Lemma spot_rem n c d :
  1 <= n -> 0 <= c < n -> -3 <= d <= 3 ->
  (c + d + n) `rem` n = (c + d) `mod` n \/ (n = 2 /\ c = 0 /\ d = -3).
Proof.
  intros Hn Hc Hd.
  destruct (Z_le_gt_dec 0 (c + d + n)) as [Hpos | Hneg].
  - left. rewrite Z.rem_mod_nonneg by lia.
    replace (c + d + n) with (c + d + 1 * n) by lia.
    now rewrite Z.mod_add by lia.
  - assert (n = 1 \/ n = 2) as [-> | ->] by lia.
    + left. now rewrite Z.rem_1_r, Z.mod_1_r.
    + right. lia.
Qed.

Lemma disc_bounds dx dy :
  dx * dx + dy * dy <= 9 -> -3 <= dx <= 3 /\ -3 <= dy <= 3.
Proof. intros Hd. nia. Qed.

(** The cells the loops of a spot reach are the cells of the wrapped disc. *)
Lemma spot_hits_iff W H cx cy x y :
  1 <= W -> 1 <= H -> 0 <= cx < W -> 0 <= cy < H -> on_grid W H x y ->
  (exists dy, dy ∈ seqZ (-3) 7 /\ exists dx, dx ∈ seqZ (-3) 7 /\
     dx * dx + dy * dy <= 9 /\ y * W + x = spotIndex W H cx cy dx dy) <->
  (exists dx dy, dx * dx + dy * dy <= 9 /\
     x = (cx + dx) `mod` W /\ y = (cy + dy) `mod` H).
Proof.
  intros HW HH Hcx Hcy [Hx Hy]. unfold spotIndex. split.
  - intros (dy & _ & dx & _ & Hd & E).
    destruct (disc_bounds dx dy Hd) as [Bx By].
    destruct (spot_rem W cx dx HW Hcx Bx) as [Ex | (-> & -> & ->)];
      destruct (spot_rem H cy dy HH Hcy By) as [Ey | (-> & -> & ->)].
    + rewrite Ex, Ey in E.
      pose proof (Z.mod_pos_bound (cx + dx) W ltac:(lia)).
      pose proof (Z.mod_pos_bound (cy + dy) H ltac:(lia)).
      destruct (cell_index_inj W x y ((cx + dx) `mod` W) ((cy + dy) `mod` H))
        as [-> ->]; try assumption.
      exists dx, dy. auto.
    + rewrite Ex in E.
      pose proof (Z.mod_pos_bound (cx + dx) W ltac:(lia)).
      change ((0 + -3 + 2) `rem` 2) with (-1) in E. nia.
    + assert (dy = 0) as -> by nia.
      change ((0 + -3 + 2) `rem` 2) with (-1) in E.
      rewrite Z.add_0_r, Z.rem_mod_nonneg in E by lia.
      replace (cy + H) with (cy + 1 * H) in E by lia.
      rewrite Z.mod_add, Z.mod_small in E by lia.
      assert (x = 1 /\ y = cy - 1) as [-> ->] by lia.
      exists 1, (-1). split; [lia |]. split; [reflexivity |].
      replace (cy + -1) with (cy - 1) by lia.
      rewrite Z.mod_small; lia.
    + lia.
  - intros (dx & dy & Hd & -> & ->).
    destruct (disc_bounds dx dy Hd) as [Bx By].
    assert (Hin : forall d, -3 <= d <= 3 -> d ∈ seqZ (-3) 7).
    { intros d Bd. apply elem_of_seqZ. lia. }
    destruct (spot_rem W cx dx HW Hcx Bx) as [Ex | (-> & -> & ->)];
      destruct (spot_rem H cy dy HH Hcy By) as [Ey | (-> & -> & ->)].
    + exists dy. split; [auto |]. exists dx. split; [auto |].
      split; [assumption |]. now rewrite Ex, Ey.
    + assert (dx = 0) as -> by nia.
      exists 1. split; [auto with lia |]. exists 0. split; [auto with lia |].
      split; [lia |].
      rewrite Z.add_0_r in *. rewrite Ex. reflexivity.
    + assert (dy = 0) as -> by nia.
      exists 0. split; [auto with lia |]. exists 1. split; [auto with lia |].
      split; [lia |].
      rewrite Z.add_0_r in *. rewrite Ey. reflexivity.
    + lia.
Qed.

Lemma marked_iff n W H (M M' : Z -> Prop) arr :
  (forall k, M k <-> M' k) -> marked n W H M arr -> marked n W H M' arr.
Proof.
  intros E [Hs Hc]. split; [assumption |]. intros k Hk.
  destruct (Hc k Hk) as [Hin Hout]. split; intros HM; [apply Hin | apply Hout];
    now rewrite E.
Qed.

(** Storing [(0, 1)] into the cell of flat index [k'] marks that cell. *)
Lemma marked_stamp n W H M arr k' :
  n = 2 \/ n = 4 -> marked n W H M arr ->
  marked n W H (fun k => M k \/ k = k')
    (wr (wr arr (k' * n) 0%R) (k' * n + 1) 1%R).
Proof.
  intros Hn [Hs Hc]. split; [now repeat apply sized_wr |].
  intros k Hk. unfold sized in Hs.
  destruct (Z.eq_dec k k') as [-> | Hne].
  - split; [intros _ | intros HM; exfalso; apply HM; now right].
    split.
    + rewrite rd_wr_ne by lia. apply rd_wr_eq. destruct Hn; subst n; lia.
    + apply rd_wr_eq. rewrite length_wr. destruct Hn; subst n; lia.
  - destruct (Hc k Hk) as [Hin Hout].
    assert (D : k' * n <> k * n /\ k' * n + 1 <> k * n /\
                k' * n <> k * n + 1 /\ k' * n + 1 <> k * n + 1)
      by (destruct Hn; subst n; lia).
    rewrite !rd_wr_ne by tauto.
    split; intros HM; [apply Hin | apply Hout]; tauto.
Qed.

Lemma marked_foldl {B} n W H (f : list R -> B -> list R)
  (hit : B -> Z -> Prop) :
  (forall M arr b, marked n W H M arr ->
     marked n W H (fun k => M k \/ hit b k) (f arr b)) ->
  forall l M arr, marked n W H M arr ->
    marked n W H (fun k => M k \/ exists b, b ∈ l /\ hit b k) (foldl f arr l).
Proof.
  intros Hf. induction l as [| b l IH]; intros M arr Hm; simpl.
  - revert Hm. apply marked_iff. intros k. split; [tauto |].
    intros [? | (b & Hb & _)]; [assumption | inversion Hb].
  - specialize (IH _ _ (Hf M arr b Hm)). revert IH. apply marked_iff.
    intros k. split.
    + intros [[? | ?] | (b' & Hb' & ?)]; [tauto | |].
      * right. exists b. split; [apply list_elem_of_here | assumption].
      * right. exists b'. split; [now apply list_elem_of_further | assumption].
    + intros [? | (b' & Hb' & ?)]; [tauto |].
      apply elem_of_cons in Hb' as [-> | Hb']; [tauto |].
      right. exists b'. tauto.
Qed.

(** One offset of a spot, in both renderers. *)
Lemma cpu_spotCell_marked W H x y M arr dx dy :
  marked 2 W H M arr ->
  marked 2 W H
    (fun k => M k \/ (dx * dx + dy * dy <= 9 /\ k = spotIndex W H x y dx dy))
    (Cpu.spotCell W H x y arr dx dy).
Proof.
  intros Hm. unfold Cpu.spotCell.
  change (3 * 3) with 9.
  destruct (Z.leb_spec (dx * dx + dy * dy) 9) as [Hd | Hd].
  - generalize (marked_stamp 2 W H M arr (spotIndex W H x y dx dy)
                  ltac:(now left) Hm).
    apply marked_iff. intros k. tauto.
  - revert Hm. apply marked_iff. intros k. split; [tauto |].
    intros [? | [? _]]; [assumption | lia].
Qed.

Lemma gpu_spotCell_marked W H x y M arr dx dy :
  marked 4 W H M arr ->
  marked 4 W H
    (fun k => M k \/ (dx * dx + dy * dy <= 9 /\ k = spotIndex W H x y dx dy))
    (Gpu.spotCell W H x y arr dx dy).
Proof.
  intros Hm. unfold Gpu.spotCell.
  change (3 * 3) with 9.
  destruct (Z.leb_spec (dx * dx + dy * dy) 9) as [Hd | Hd].
  - generalize (marked_stamp 4 W H M arr (spotIndex W H x y dx dy)
                  ltac:(now right) Hm).
    apply marked_iff. intros k. tauto.
  - revert Hm. apply marked_iff. intros k. split; [tauto |].
    intros [? | [? _]]; [assumption | lia].
Qed.

Lemma cpu_spot_marked W H x y M arr :
  marked 2 W H M arr ->
  marked 2 W H (fun k => M k \/ spot_hit W H (x, y) k) (Cpu.spot W H x y arr).
Proof.
  intros Hm. unfold Cpu.spot, spot_hit.
  apply (marked_foldl 2 W H _
           (fun dy k => exists dx, dx ∈ seqZ (-3) 7 /\
              dx * dx + dy * dy <= 9 /\ k = spotIndex W H x y dx dy));
    [| assumption].
  intros M' arr' dy Hm'.
  apply (marked_foldl 2 W H _
           (fun dx k => dx * dx + dy * dy <= 9 /\ k = spotIndex W H x y dx dy));
    [| assumption].
  intros M'' arr'' dx. apply cpu_spotCell_marked.
Qed.

Lemma gpu_spot_marked W H x y M arr :
  marked 4 W H M arr ->
  marked 4 W H (fun k => M k \/ spot_hit W H (x, y) k) (Gpu.spot W H x y arr).
Proof.
  intros Hm. unfold Gpu.spot, spot_hit.
  apply (marked_foldl 4 W H _
           (fun dy k => exists dx, dx ∈ seqZ (-3) 7 /\
              dx * dx + dy * dy <= 9 /\ k = spotIndex W H x y dx dy));
    [| assumption].
  intros M' arr' dy Hm'.
  apply (marked_foldl 4 W H _
           (fun dx k => dx * dx + dy * dy <= 9 /\ k = spotIndex W H x y dx dy));
    [| assumption].
  intros M'' arr'' dx. apply gpu_spotCell_marked.
Qed.

Lemma cpu_seedSpots_marked rand W H arr :
  marked 2 W H (fun _ => False) arr ->
  marked 2 W H
    (fun k => exists i, (i < 20)%nat /\
                spot_hit W H (Cpu.seedCentre rand W H i) k)
    (Cpu.seedSpots rand W H arr).
Proof.
  intros Hm. unfold Cpu.seedSpots.
  generalize (marked_foldl 2 W H
    (fun cur i => let '(x, y) := Cpu.seedCentre rand W H i in
                  Cpu.spot W H x y cur)
    (fun i k => spot_hit W H (Cpu.seedCentre rand W H i) k)
    ltac:(intros M a i Ha; destruct (Cpu.seedCentre rand W H i);
          now apply cpu_spot_marked)
    (seq 0 20) _ arr Hm).
  apply marked_iff. intros k. split.
  - intros [[] | (i & Hi & Hh)]. exists i. split; [| assumption].
    apply elem_of_seq in Hi. lia.
  - intros (i & Hi & Hh). right. exists i. split; [| assumption].
    apply elem_of_seq. lia.
Qed.

Lemma gpu_seedSpots_marked rand W H arr :
  marked 4 W H (fun _ => False) arr ->
  marked 4 W H
    (fun k => exists i, (i < 20)%nat /\
                spot_hit W H (Gpu.seedCentre rand W H i) k)
    (Gpu.seedSpots rand W H arr).
Proof.
  intros Hm. unfold Gpu.seedSpots.
  generalize (marked_foldl 4 W H
    (fun cur i => let '(x, y) := Gpu.seedCentre rand W H i in
                  Gpu.spot W H x y cur)
    (fun i k => spot_hit W H (Gpu.seedCentre rand W H i) k)
    ltac:(intros M a i Ha; destruct (Gpu.seedCentre rand W H i);
          now apply gpu_spot_marked)
    (seq 0 20) _ arr Hm).
  apply marked_iff. intros k. split.
  - intros [[] | (i & Hi & Hh)]. exists i. split; [| assumption].
    apply elem_of_seq in Hi. lia.
  - intros (i & Hi & Hh). right. exists i. split; [| assumption].
    apply elem_of_seq. lia.
Qed.

Lemma fill_foldl n W H (f : list R -> Z -> list R) :
  (forall arr k', sized n W H arr ->
     sized n W H (f arr k') /\
     forall k, 0 <= k < W * H -> k = k' \/ pureA_at n arr k ->
       pureA_at n (f arr k') k) ->
  forall l arr, sized n W H arr ->
    sized n W H (foldl f arr l) /\
    forall k, 0 <= k < W * H -> k ∈ l \/ pureA_at n arr k ->
      pureA_at n (foldl f arr l) k.
Proof.
  intros Hf. induction l as [| k' l IH]; intros arr Hs; simpl.
  - split; [assumption |]. intros k _ [Hin | ?]; [inversion Hin | assumption].
  - destruct (Hf arr k' Hs) as [Hs' Hc].
    destruct (IH _ Hs') as [Hs'' Hc'']. split; [assumption |].
    intros k Hk [Hin | Hold]; apply Hc''; try assumption.
    + apply elem_of_cons in Hin as [-> | Hin]; [right | now left].
      apply Hc; auto.
    + right. apply Hc; auto.
Qed.

Lemma cpu_fillA_marked W H :
  0 <= W -> 0 <= H ->
  marked 2 W H (fun _ => False) (Cpu.fillA (newFloat32Array (W * H * 2))).
Proof.
  intros HW HH.
  assert (Hs0 : sized 2 W H (newFloat32Array (W * H * 2)))
    by (apply sized_new; nia).
  unfold Cpu.fillA.
  replace ((Z.of_nat (length (newFloat32Array (W * H * 2))) + 1) `div` 2)
    with (W * H).
  2:{ unfold sized in Hs0. rewrite Hs0.
      replace (W * H * 2 + 1) with (1 + W * H * 2) by lia.
      rewrite Z.div_add by lia. reflexivity. }
  destruct (fill_foldl 2 W H
              (fun cur k => let i := 2 * k in wr (wr cur i 1%R) (i + 1) 0%R))
    with (l := seqZ 0 (W * H)) (arr := newFloat32Array (W * H * 2))
    as [Hs Hc]; [| assumption |].
  - intros arr k' Hsa. cbv zeta. split; [now repeat apply sized_wr |].
    intros k Hk Hor. unfold pureA_at. unfold sized in Hsa.
    replace (2 * k') with (k' * 2) by lia.
    destruct (Z.eq_dec k k') as [-> | Hne].
    + split.
      * rewrite rd_wr_ne by lia. apply rd_wr_eq. lia.
      * apply rd_wr_eq. rewrite length_wr. lia.
    + destruct Hor as [? | [E1 E2]]; [contradiction |].
      rewrite !rd_wr_ne by lia. now split.
  - split; [assumption |]. intros k Hk. split; [intros [] | intros _].
    apply Hc; [assumption |]. left. apply elem_of_seqZ. lia.
Qed.

Lemma gpu_fillA_marked W H :
  0 <= W -> 0 <= H ->
  marked 4 W H (fun _ => False) (Gpu.fillA (newFloat32Array (W * H * 4))).
Proof.
  intros HW HH.
  assert (Hs0 : sized 4 W H (newFloat32Array (W * H * 4)))
    by (apply sized_new; nia).
  unfold Gpu.fillA.
  replace ((Z.of_nat (length (newFloat32Array (W * H * 4))) + 3) `div` 4)
    with (W * H).
  2:{ unfold sized in Hs0. rewrite Hs0.
      replace (W * H * 4 + 3) with (3 + W * H * 4) by lia.
      rewrite Z.div_add by lia. reflexivity. }
  destruct (fill_foldl 4 W H
              (fun st k =>
                 let i := 4 * k in
                 let st := wr st i 1%R in
                 let st := wr st (i + 1) 0%R in
                 let st := wr st (i + 2) 0%R in
                 wr st (i + 3) 1%R))
    with (l := seqZ 0 (W * H)) (arr := newFloat32Array (W * H * 4))
    as [Hs Hc]; [| assumption |].
  - intros arr k' Hsa. cbv zeta. split; [now repeat apply sized_wr |].
    intros k Hk Hor. unfold pureA_at. unfold sized in Hsa.
    replace (4 * k') with (k' * 4) by lia.
    destruct (Z.eq_dec k k') as [-> | Hne].
    + split.
      * rewrite !rd_wr_ne by lia. apply rd_wr_eq. lia.
      * rewrite !rd_wr_ne by lia. apply rd_wr_eq. rewrite length_wr. lia.
    + destruct Hor as [? | [E1 E2]]; [contradiction |].
      rewrite !rd_wr_ne by lia. now split.
  - split; [assumption |]. intros k Hk. split; [intros [] | intros _].
    apply Hc; [assumption |]. left. apply elem_of_seqZ. lia.
Qed.

(** [Math.floor(Math.random() * n)] is an index below [n]. *)
Lemma randomBelow_range rand k n :
  (0 <= rand k < 1)%R -> 1 <= n -> 0 <= randomBelow rand k n < n.
Proof.
  intros Hr Hn. unfold randomBelow.
  assert (Hn' : (1 <= IZR n)%R) by (apply IZR_le; lia).
  destruct (base_Int_part (rand k * IZR n)) as [Hlo Hhi].
  assert (Hp : (0 <= rand k * IZR n < IZR n)%R) by nra.
  split.
  - assert (-1 < Int_part (rand k * IZR n)); [| lia].
    apply lt_IZR. lra.
  - apply lt_IZR. lra.
Qed.

Lemma seedCentre_on_grid rand W H i :
  1 <= W -> 1 <= H -> (forall k, (0 <= rand k < 1)%R) ->
  on_grid W H (fst (Cpu.seedCentre rand W H i)) (snd (Cpu.seedCentre rand W H i)).
Proof.
  intros HW HH Hr. unfold Cpu.seedCentre, on_grid. cbn [fst snd].
  split; apply randomBelow_range; auto.
Qed.

(** The cells the loops reach are the cells of the 20 wrapped discs. *)
Lemma hits_in_spot rand W H x y :
  1 <= W -> 1 <= H -> (forall k, (0 <= rand k < 1)%R) -> on_grid W H x y ->
  (exists i, (i < 20)%nat /\
     spot_hit W H (Cpu.seedCentre rand W H i) (y * W + x)) <->
  in_spot (Cpu.seedCentre rand W H) W H x y.
Proof.
  intros HW HH Hr Hxy. unfold in_spot, spot_hit.
  split; intros (i & Hi & Hh); exists i; (split; [assumption |]);
    destruct (seedCentre_on_grid rand W H i HW HH Hr) as [Hcx Hcy];
    now apply (spot_hits_iff W H _ _ x y HW HH Hcx Hcy Hxy).
Qed.

(** The contents of a cell of a marked array. *)
Lemma marked_cell n W H M arr x y :
  marked n W H M arr -> on_grid W H x y ->
  let k := y * W + x in
  ((rd arr (k * n) = 0%R /\ rd arr (k * n + 1) = 1%R) <-> M k) /\
  (~ M k -> rd arr (k * n) = 1%R /\ rd arr (k * n + 1) = 0%R).
Proof.
  intros [_ Hc] Hxy k.
  destruct (Hc k (cell_index_range W H x y Hxy)) as [Hin Hout].
  split; [| assumption]. split; [| assumption].
  intros [E0 _]. destruct (classic (M k)) as [? | HN]; [assumption |].
  destruct (Hout HN) as [E1 _]. rewrite E0 in E1. lra.
Qed.

(** The cells of pure B after initialisation, in both renderers. *)
Lemma initialisation_marks_the_discs rand W H :
  1 <= W -> 1 <= H -> (forall k, (0 <= rand k < 1)%R) ->
  (forall c n, exists cur,
     Cpu.currentGridRef (Cpu.initGrid rand (Cpu.mkSim W H c n)) = Some cur /\
     forall x y, on_grid W H x y ->
       ((cellA W cur x y = 0%R /\ cellB W cur x y = 1%R) <->
        in_spot (Cpu.seedCentre rand W H) W H x y) /\
       (~ in_spot (Cpu.seedCentre rand W H) W H x y ->
        cellA W cur x y = 1%R /\ cellB W cur x y = 0%R)) /\
  (forall x y, on_grid W H x y ->
     ((redField (Gpu.initializeTexture rand W H) x y = 0%R /\
       greenField (Gpu.initializeTexture rand W H) x y = 1%R) <->
      in_spot (Gpu.seedCentre rand W H) W H x y) /\
     (~ in_spot (Gpu.seedCentre rand W H) W H x y ->
      redField (Gpu.initializeTexture rand W H) x y = 1%R /\
      greenField (Gpu.initializeTexture rand W H) x y = 0%R)).
Proof.
  intros HW HH Hr. split.
  - intros c n. eexists. split; [reflexivity |].
    cbn [Cpu.width Cpu.height]. intros x y Hxy.
    pose proof (cpu_seedSpots_marked rand W H _
                  (cpu_fillA_marked W H ltac:(lia) ltac:(lia))) as Hm.
    destruct (marked_cell 2 W H _ _ x y Hm Hxy) as [Hiff Hout].
    unfold cellA, cellB.
    rewrite <- (hits_in_spot rand W H x y HW HH Hr Hxy).
    split; assumption.
  - intros x y Hxy.
    pose proof (gpu_seedSpots_marked rand W H _
                  (gpu_fillA_marked W H ltac:(lia) ltac:(lia))) as Hm.
    destruct (marked_cell 4 W H _ _ x y Hm Hxy) as [Hiff Hout].
    unfold redField, greenField, Gpu.initializeTexture, Gpu.texImage2D,
      Gpu.initialState.
    cbn [Gpu.texel Gpu.red Gpu.green].
    change (Gpu.seedCentre rand W H) with (Cpu.seedCentre rand W H) in *.
    rewrite <- (hits_in_spot rand W H x y HW HH Hr Hxy).
    split; assumption.
Qed.

(** C9.  On a grid of any size [W, H >= 1] and for every draw of the
    oracle, after initialisation a cell holds exactly [(a, b) = (0, 1)] if
    and only if it is a seed centre plus an offset [(dx, dy)] with
    [dx^2 + dy^2 <= 9], taken modulo [(W, H)]; every other cell holds
    exactly [(1, 0)].  The grid of [initGrid] and the texture of
    [initializeTexture]. *)
Theorem seed_spots_after_initialisation rand W H :
  1 <= W -> 1 <= H -> (forall k, (0 <= rand k < 1)%R) ->
  (forall c n, exists cur,
     Cpu.currentGridRef (Cpu.initGrid rand (Cpu.mkSim W H c n)) = Some cur /\
     forall x y, on_grid W H x y ->
       ((cellA W cur x y = 0%R /\ cellB W cur x y = 1%R) <->
        in_spot (Cpu.seedCentre rand W H) W H x y) /\
       (~ in_spot (Cpu.seedCentre rand W H) W H x y ->
        cellA W cur x y = 1%R /\ cellB W cur x y = 0%R)) /\
  (forall x y, on_grid W H x y ->
     ((redField (Gpu.initializeTexture rand W H) x y = 0%R /\
       greenField (Gpu.initializeTexture rand W H) x y = 1%R) <->
      in_spot (Gpu.seedCentre rand W H) W H x y) /\
     (~ in_spot (Gpu.seedCentre rand W H) W H x y ->
      redField (Gpu.initializeTexture rand W H) x y = 1%R /\
      greenField (Gpu.initializeTexture rand W H) x y = 0%R)).
Proof. exact (initialisation_marks_the_discs rand W H). Qed.

Lemma seed_spots_after_initialisation_witness :
  exists cur,
    Cpu.currentGridRef
      (Cpu.initGrid (fun _ => 0%R) (Cpu.mkSim 8 8 None None)) = Some cur /\
    forall x y, on_grid 8 8 x y ->
      ((cellA 8 cur x y = 0%R /\ cellB 8 cur x y = 1%R) <->
       in_spot (Cpu.seedCentre (fun _ => 0%R) 8 8) 8 8 x y) /\
      (~ in_spot (Cpu.seedCentre (fun _ => 0%R) 8 8) 8 8 x y ->
       cellA 8 cur x y = 1%R /\ cellB 8 cur x y = 0%R).
Proof.
  refine (proj1 (seed_spots_after_initialisation (fun _ => 0%R) 8 8 _ _ _)
            None None); try lia.
  intros _. lra.
Defined.

(** Every choice of 20 centres on the grid is the draw of some oracle. *)
Lemma every_choice_of_centres_is_drawn W H (cs : nat -> Z * Z) :
  1 <= W -> 1 <= H ->
  (forall i, on_grid W H (fst (cs i)) (snd (cs i))) ->
  exists rand,
    (forall k, (0 <= rand k < 1)%R) /\
    forall i, Cpu.seedCentre rand W H i = cs i.
Proof.
  intros HW HH Hcs.
  assert (HW' : (1 <= IZR W)%R) by (apply IZR_le; lia).
  assert (HH' : (1 <= IZR H)%R) by (apply IZR_le; lia).
  exists (fun k => if Nat.even k
                   then ((IZR (fst (cs (Nat.div2 k))) + 0.5) / IZR W)%R
                   else ((IZR (snd (cs (Nat.div2 k))) + 0.5) / IZR H)%R).
  split.
  - intros k. destruct (Hcs (Nat.div2 k)) as [[Hx0 Hx1] [Hy0 Hy1]].
    destruct (Nat.even k).
    + apply IZR_le in Hx0. assert (Hx2 : (IZR (fst (cs (Nat.div2 k))) + 1 <= IZR W)%R)
        by (rewrite <- plus_IZR; apply IZR_le; lia).
      split.
      * apply Rmult_le_pos; [lra |]. left. apply Rinv_0_lt_compat. lra.
      * apply Rmult_lt_reg_r with (IZR W); [lra |].
        unfold Rdiv. rewrite Rmult_assoc, Rinv_l by lra. lra.
    + apply IZR_le in Hy0. assert (Hy2 : (IZR (snd (cs (Nat.div2 k))) + 1 <= IZR H)%R)
        by (rewrite <- plus_IZR; apply IZR_le; lia).
      split.
      * apply Rmult_le_pos; [lra |]. left. apply Rinv_0_lt_compat. lra.
      * apply Rmult_lt_reg_r with (IZR H); [lra |].
        unfold Rdiv. rewrite Rmult_assoc, Rinv_l by lra. lra.
  - intros i. unfold Cpu.seedCentre, randomBelow.
    replace (Nat.even (2 * i)) with true
      by (symmetry; apply Nat.even_spec; now exists i).
    replace (Nat.even (2 * i + 1)) with false.
    2:{ symmetry. rewrite <- Nat.negb_odd. apply Bool.negb_false_iff.
        apply Nat.odd_spec. now exists i. }
    rewrite Nat.div2_double.
    replace (2 * i + 1)%nat with (S (2 * i)) by lia.
    rewrite Nat.div2_succ_double.
    unfold Rdiv. rewrite !Rmult_assoc, !Rinv_l, !Rmult_1_r by lra.
    rewrite !Int_part_half. now destruct (cs i).
Qed.

(** A spot centred at the corner [(0, 0)] reaches the opposite corner. *)
Example spot_at_origin_wraps :
  exists cur,
    Cpu.currentGridRef
      (Cpu.initGrid (fun _ => 0%R) (Cpu.mkSim 8 8 None None)) = Some cur /\
    cellA 8 cur 7 7 = 0%R /\ cellB 8 cur 7 7 = 1%R /\
    cellA 8 cur 4 4 = 1%R /\ cellB 8 cur 4 4 = 0%R.
Proof.
  destruct (proj1 (initialisation_marks_the_discs (fun _ => 0%R) 8 8
                     ltac:(lia) ltac:(lia) ltac:(intros k; cbv beta; lra)) None None)
    as (cur & E & Hc).
  exists cur. split; [exact E |].
  assert (C0 : forall i, Cpu.seedCentre (fun _ => 0%R) 8 8 i = (0, 0)).
  { intros i. unfold Cpu.seedCentre, randomBelow.
    rewrite !Rmult_0_l. change 0%R with (IZR 0). now rewrite Int_part_IZR. }
  destruct (Hc 7 7 ltac:(unfold on_grid; lia)) as [Hin _].
  destruct (Hc 4 4 ltac:(unfold on_grid; lia)) as [_ Hout].
  assert (H77 : cellA 8 cur 7 7 = 0%R /\ cellB 8 cur 7 7 = 1%R).
  { apply Hin. exists 0%nat. split; [lia |]. exists (-1), (-1). rewrite C0.
    split; [lia |]. split; reflexivity. }
  assert (H44 : cellA 8 cur 4 4 = 1%R /\ cellB 8 cur 4 4 = 0%R);
    [apply Hout | tauto].
  intros (i & _ & dx & dy & Hd & Ex & Ey). rewrite C0 in Ex, Ey.
  cbn [fst snd] in Ex, Ey. destruct (disc_bounds dx dy Hd) as [Bx By].
  rewrite Z.add_0_l in Ex, Ey.
  assert (dx = 4 \/ dx = -4) by
    (pose proof (Z.mod_pos_bound dx 8 ltac:(lia));
     pose proof (Z.div_mod dx 8 ltac:(lia)); lia).
  lia.
Qed.

(** * Further properties of the code *)

(** ** The double buffer of the sequential renderer *)

Lemma sized_stepGrid_iter p W H cur n :
  0 <= W -> 0 <= H -> sized 2 W H cur ->
  sized 2 W H (Nat.iter n (stepGrid p W H) cur).
Proof.
  intros HW HH Hc. destruct n as [| n]; [assumption |].
  rewrite Nat.iter_succ. now apply sized_stepGrid.
Qed.

(** After [n + 1] calls the two refs hold two consecutive states. *)
Lemma computeStep_iter_succ p W H cur nxt n :
  0 < W -> 0 <= H -> sized 2 W H cur -> sized 2 W H nxt ->
  Nat.iter (S n) (Cpu.computeStep p) (Cpu.mkSim W H (Some cur) (Some nxt)) =
    Cpu.mkSim W H (Some (Nat.iter (S n) (stepGrid p W H) cur))
                  (Some (Nat.iter n (stepGrid p W H) cur)).
Proof.
  intros HW HH Hc Hn. induction n as [| n IH].
  - cbn [Nat.iter nat_rect].
    now rewrite (computeStep_stepGrid p _ cur nxt).
  - rewrite Nat.iter_succ, IH.
    rewrite (computeStep_stepGrid p _ (Nat.iter (S n) (stepGrid p W H) cur)
               (Nat.iter n (stepGrid p W H) cur));
      cbn [Cpu.width Cpu.height Cpu.currentGridRef Cpu.nextGridRef];
      try reflexivity; try assumption.
    apply sized_stepGrid_iter; (lia || assumption).
Qed.

Lemma iter_iter {A} (f : A -> A) (k n : nat) (x : A) :
  Nat.iter k (Nat.iter n f) x = Nat.iter (k * n) f x.
Proof.
  induction k as [| k IH]; [reflexivity |].
  rewrite Nat.iter_succ, IH. cbn [Nat.mul]. now rewrite Nat.iter_add.
Qed.

(** X1.  [computeStep] reads the current grid only: the grid it leaves in
    [currentGridRef] does not depend on what the next array held, each of
    its cells is the kernel's update of the old current grid, and the old
    current grid becomes the next array, untouched. *)
Theorem computeStep_double_buffer p W H cur nxt nxt' :
  0 < W -> 0 <= H -> sized 2 W H nxt -> sized 2 W H nxt' ->
  Cpu.computeStep p (Cpu.mkSim W H (Some cur) (Some nxt)) =
    Cpu.computeStep p (Cpu.mkSim W H (Some cur) (Some nxt')) /\
  Cpu.nextGridRef (Cpu.computeStep p (Cpu.mkSim W H (Some cur) (Some nxt)))
    = Some cur /\
  exists g,
    Cpu.currentGridRef
      (Cpu.computeStep p (Cpu.mkSim W H (Some cur) (Some nxt))) = Some g /\
    sized 2 W H g /\
    forall x y, on_grid W H x y ->
      cellA W g x y = kernelA p (cellA W cur) (cellB W cur) W H x y /\
      cellB W g x y =
        kernelB p (Cpu.killRate p W x) (cellA W cur) (cellB W cur) W H x y.
Proof.
  intros HW HH Hn Hn'.
  rewrite (computeStep_stepGrid p _ cur nxt), (computeStep_stepGrid p _ cur nxt');
    cbn [Cpu.width Cpu.height Cpu.currentGridRef Cpu.nextGridRef];
    try reflexivity; try assumption.
  split; [reflexivity |]. split; [reflexivity |].
  exists (stepGrid p W H cur). split; [reflexivity |].
  split; [apply sized_stepGrid; lia |].
  intros x y Hxy.
  destruct (stepGrid_cell p W H cur x y ltac:(lia) HH Hxy) as [-> ->].
  now apply cpu_kernel.
Qed.

Lemma computeStep_double_buffer_witness :
  Cpu.computeStep defaultParams
    (Cpu.mkSim 2 1 (Some gridB_2x1) (Some [0; 0; 0; 0]%R)) =
  Cpu.computeStep defaultParams
    (Cpu.mkSim 2 1 (Some gridB_2x1) (Some [1; 1; 1; 1]%R)).
Proof.
  refine (proj1 (computeStep_double_buffer defaultParams 2 1 gridB_2x1
                   [0; 0; 0; 0]%R [1; 1; 1; 1]%R _ _ _ _));
    try lia; reflexivity.
Defined.

(** X2.  Frames compose: after [k] animation frames of [iterations = N]
    steps each, [currentGridRef] holds the [(k * N)]-fold step of the grid
    the first frame started from, and [nextGridRef] the state one step
    before it. *)
Theorem cpu_frames_compose p W H cur nxt k :
  0 < W -> 0 <= H -> sized 2 W H cur -> sized 2 W H nxt ->
  let n := (k * Z.to_nat (iterations p))%nat in
  let s' := Nat.iter k (fun s => fst (Cpu.update p s))
              (Cpu.mkSim W H (Some cur) (Some nxt)) in
  Cpu.currentGridRef s' = Some (Nat.iter n (stepGrid p W H) cur) /\
  ((0 < n)%nat ->
   Cpu.nextGridRef s' = Some (Nat.iter (n - 1) (stepGrid p W H) cur)).
Proof.
  intros HW HH Hc Hn. cbv zeta.
  change (fun s => fst (Cpu.update p s))
    with (Nat.iter (Z.to_nat (iterations p)) (Cpu.computeStep p)).
  rewrite iter_iter.
  destruct (k * Z.to_nat (iterations p))%nat as [| m].
  - split; [reflexivity | lia].
  - rewrite computeStep_iter_succ by assumption.
    cbn [Cpu.currentGridRef Cpu.nextGridRef].
    split; [reflexivity |]. intros _.
    now rewrite Nat.sub_succ, Nat.sub_0_r.
Qed.

Lemma cpu_frames_compose_witness :
  Cpu.currentGridRef
    (Nat.iter 3 (fun s => fst (Cpu.update defaultParams s))
       (Cpu.mkSim 2 1 (Some gridB_2x1) (Some [0; 0; 0; 0]%R)))
  = Some (Nat.iter 24 (stepGrid defaultParams 2 1) gridB_2x1).
Proof.
  refine (proj1 (cpu_frames_compose defaultParams 2 1 gridB_2x1
                   [0; 0; 0; 0]%R 3 _ _ _ _));
    try lia; reflexivity.
Defined.

(** ** Bounds *)

(** X3.  The stencil loop and the loop body of [computeStep] stay inside
    the arrays: for a cell on the grid and an offset of the 3x3 stencil, the
    index of the neighbour and the index of the cell itself address
    elements of an array of the grid's size, for both species. *)
Theorem step_indices_inside W H (cur : list R) x y dx dy :
  sized 2 W H cur -> on_grid W H x y -> -1 <= dx <= 1 -> -1 <= dy <= 1 ->
  let px := (x + dx + W) `rem` W in
  let py := (y + dy + H) `rem` H in
  let idx := (py * W + px) * 2 in
  let i := (y * W + x) * 2 in
  on_grid W H px py /\
  inside cur idx /\ inside cur (idx + 1) /\
  inside cur i /\ inside cur (i + 1).
Proof.
  intros Hs Hxy Hdx Hdy. cbv zeta. unfold inside. unfold sized in Hs.
  destruct Hxy as [Hx Hy].
  destruct (wrap_rem W x dx ltac:(lia) Hx ltac:(lia)) as [-> Hpx].
  destruct (wrap_rem H y dy ltac:(lia) Hy ltac:(lia)) as [-> Hpy].
  pose proof (cell_index_range W H _ _ (conj Hpx Hpy)).
  pose proof (cell_index_range W H x y (conj Hx Hy)).
  split; [split; assumption |]. lia.
Qed.

Lemma step_indices_inside_witness :
  inside gridB_2x1 (((0 + -1 + 1) `rem` 1 * 2 + (0 + -1 + 2) `rem` 2) * 2).
Proof.
  refine (proj1 (proj2 (step_indices_inside 2 1 gridB_2x1 0 0 (-1) (-1)
                          _ _ _ _)));
    try lia; try reflexivity.
  unfold on_grid. lia.
Defined.

(** X4.  On a grid of at least 3x3 cells every store of a seed spot is in
    bounds and lands on the wrapped cell: for a centre on the grid and an
    offset of the loops, the flat index the code computes is that of the
    cell [((x + dx) mod W, (y + dy) mod H)], and both stores address
    elements of the array. *)
Theorem spot_stores_inside W H (cur : list R) x y dx dy :
  3 <= W -> 3 <= H -> sized 2 W H cur -> on_grid W H x y ->
  -3 <= dx <= 3 -> -3 <= dy <= 3 ->
  spotIndex W H x y dx dy =
    (y + dy) `mod` H * W + (x + dx) `mod` W /\
  inside cur (spotIndex W H x y dx dy * 2) /\
  inside cur (spotIndex W H x y dx dy * 2 + 1).
Proof.
  intros HW HH Hs [Hx Hy] Hdx Hdy. unfold inside, spotIndex.
  unfold sized in Hs.
  destruct (wrap_rem W x dx ltac:(lia) Hx ltac:(lia)) as [-> Hpx].
  destruct (wrap_rem H y dy ltac:(lia) Hy ltac:(lia)) as [-> Hpy].
  pose proof (cell_index_range W H _ _ (conj Hpx Hpy)).
  split; [reflexivity | lia].
Qed.

Lemma spot_stores_inside_witness :
  spotIndex 3 3 0 0 (-3) (-1) = (0 + -1) `mod` 3 * 3 + (0 + -3) `mod` 3.
Proof.
  refine (proj1 (spot_stores_inside 3 3 (replicate 18 0%R) 0 0 (-3) (-1)
                   _ _ _ _ _ _));
    try lia; try reflexivity.
  unfold on_grid. lia.
Defined.

(** ** What a step can and cannot do *)

Lemma stencil_local f g W H x y :
  (forall dx dy, -1 <= dx <= 1 -> -1 <= dy <= 1 ->
     f ((x + dx) `mod` W) ((y + dy) `mod` H) =
     g ((x + dx) `mod` W) ((y + dy) `mod` H)) ->
  stencil f W H x y = stencil g W H x y.
Proof.
  intros E. unfold stencil. now rewrite !E by lia.
Qed.

Lemma kernel_local p kill fa fb ga gb W H x y :
  on_grid W H x y ->
  (forall dx dy, -1 <= dx <= 1 -> -1 <= dy <= 1 ->
     fa ((x + dx) `mod` W) ((y + dy) `mod` H) =
       ga ((x + dx) `mod` W) ((y + dy) `mod` H) /\
     fb ((x + dx) `mod` W) ((y + dy) `mod` H) =
       gb ((x + dx) `mod` W) ((y + dy) `mod` H)) ->
  kernelA p fa fb W H x y = kernelA p ga gb W H x y /\
  kernelB p kill fa fb W H x y = kernelB p kill ga gb W H x y.
Proof.
  intros [Hx Hy] E. unfold kernelA, kernelB.
  rewrite (stencil_local fa ga), (stencil_local fb gb)
    by (intros dx dy Hdx Hdy; now apply E).
  destruct (E 0 0 ltac:(lia) ltac:(lia)) as [Ea Eb].
  rewrite !Z.add_0_r, !Z.mod_small in Ea, Eb by lia.
  now rewrite Ea, Eb.
Qed.

(** X5.  A step is local: the new contents of a cell depend on the old
    contents of its 3x3 toroidal neighbourhood only.  Two grids that agree
    there give the cell the same two values. *)
Theorem step_is_local p W H g g' x y :
  0 <= H -> on_grid W H x y -> agree_around W H g g' x y ->
  cellA W (stepGrid p W H g) x y = cellA W (stepGrid p W H g') x y /\
  cellB W (stepGrid p W H g) x y = cellB W (stepGrid p W H g') x y.
Proof.
  intros HH Hxy Hag.
  assert (HW : 0 <= W) by (destruct Hxy; lia).
  destruct (stepGrid_cell p W H g x y HW HH Hxy) as [-> ->].
  destruct (stepGrid_cell p W H g' x y HW HH Hxy) as [-> ->].
  destruct (cpu_kernel p W H g x y Hxy) as [-> ->].
  destruct (cpu_kernel p W H g' x y Hxy) as [-> ->].
  now apply kernel_local.
Qed.

Lemma step_is_local_witness :
  cellA 2 (stepGrid defaultParams 2 1 gridB_2x1) 1 0 =
  cellA 2 (stepGrid defaultParams 2 1 [0; 1; 0; 1; 7; 7]%R) 1 0.
Proof.
  refine (proj1 (step_is_local defaultParams 2 1 gridB_2x1
                   [0; 1; 0; 1; 7; 7]%R 1 0 _ _ _)).
  - lia.
  - unfold on_grid. lia.
  - intros dx dy Hdx Hdy.
    pose proof (Z.mod_pos_bound (1 + dx) 2 ltac:(lia)) as Bx.
    rewrite (Z.mod_1_r (0 + dy)).
    assert ((1 + dx) `mod` 2 = 0 \/ (1 + dx) `mod` 2 = 1) as [-> | ->] by lia;
      split; reflexivity.
Defined.

Lemma kernelB_without_B p kill fa fb W H x y :
  on_grid W H x y ->
  (forall dx dy, -1 <= dx <= 1 -> -1 <= dy <= 1 ->
     fb ((x + dx) `mod` W) ((y + dy) `mod` H) = 0%R) ->
  kernelB p kill fa fb W H x y = 0%R.
Proof.
  intros [Hx Hy] E. unfold kernelB.
  rewrite (stencil_local fb (fun _ _ => 0%R)) by assumption.
  pose proof (E 0 0 ltac:(lia) ltac:(lia)) as E0.
  rewrite !Z.add_0_r, !Z.mod_small in E0 by lia. rewrite E0.
  unfold stencil. replace (0 + _)%R with 0%R by ring.
  apply clamp01_id, unit_0.
Qed.

(** X6.  A step creates no B out of nothing: a cell that holds no B and
    whose eight toroidal neighbours hold no B still holds [b = 0] after the
    step, under any parameters.  Sequential kernel and shader. *)
Theorem B_spreads_from_neighbours_only p W H x y :
  0 <= H -> on_grid W H x y ->
  (forall g,
     (forall dx dy, -1 <= dx <= 1 -> -1 <= dy <= 1 ->
        cellB W g ((x + dx) `mod` W) ((y + dy) `mod` H) = 0%R) ->
     cellB W (stepGrid p W H g) x y = 0%R) /\
  (forall t,
     Gpu.tex_w t = W -> Gpu.tex_h t = H ->
     (forall dx dy, -1 <= dx <= 1 -> -1 <= dy <= 1 ->
        greenField t ((x + dx) `mod` W) ((y + dy) `mod` H) = 0%R) ->
     greenField (stepTexture p W H t) x y = 0%R).
Proof.
  intros HH Hxy. split.
  - intros g Hb.
    assert (HW : 0 <= W) by (destruct Hxy; lia).
    destruct (stepGrid_cell p W H g x y HW HH Hxy) as [_ ->].
    destruct (cpu_kernel p W H g x y Hxy) as [_ ->].
    now apply kernelB_without_B.
  - intros t Hw Hh Hb.
    destruct (gpu_kernel p W H t x y Hw Hh Hxy) as [_ ->].
    now apply kernelB_without_B.
Qed.

Lemma B_spreads_from_neighbours_only_witness :
  cellB 2 (stepGrid defaultParams 2 1 [1; 0; 0.5; 0]%R) 1 0 = 0%R.
Proof.
  refine (proj1 (B_spreads_from_neighbours_only defaultParams 2 1 1 0 _ _)
            [1; 0; 0.5; 0]%R _).
  - lia.
  - unfold on_grid. lia.
  - intros dx dy Hdx Hdy.
    pose proof (Z.mod_pos_bound (1 + dx) 2 ltac:(lia)) as Bx.
    rewrite (Z.mod_1_r (0 + dy)).
    assert ((1 + dx) `mod` 2 = 0 \/ (1 + dx) `mod` 2 = 1) as [-> | ->] by lia;
      reflexivity.
Defined.

(** X7.  On a uniform grid nothing diffuses: every cell is updated by the
    reaction terms alone, [a' = clamp(a - a b^2 + f (1 - a))] and
    [b' = clamp(b + a b^2 - (f + k) b)], with the kill rate [k] of the
    cell's column in the sequential kernel and [killMin] in the shader. *)
Theorem step_of_uniform_grid p W H ca cb x y :
  0 <= H -> on_grid W H x y ->
  (forall g,
     (forall x' y', on_grid W H x' y' ->
        cellA W g x' y' = ca /\ cellB W g x' y' = cb) ->
     cellA W (stepGrid p W H g) x y =
       clamp01 (ca - ca * cb * cb + Cpu.feedRate p * (1 - ca)) /\
     cellB W (stepGrid p W H g) x y =
       clamp01 (cb + ca * cb * cb
                - (Cpu.feedRate p + Cpu.killRate p W x) * cb)) /\
  (forall t,
     Gpu.tex_w t = W -> Gpu.tex_h t = H ->
     (forall x' y', on_grid W H x' y' ->
        redField t x' y' = ca /\ greenField t x' y' = cb) ->
     redField (stepTexture p W H t) x y =
       clamp01 (ca - ca * cb * cb + Cpu.feedRate p * (1 - ca)) /\
     greenField (stepTexture p W H t) x y =
       clamp01 (cb + ca * cb * cb - (Cpu.feedRate p + killMin p) * cb)).
Proof.
  intros HH Hxy. split.
  - intros g Hu.
    assert (HW : 0 <= W) by (destruct Hxy; lia).
    destruct (stepGrid_cell p W H g x y HW HH Hxy) as [-> ->].
    destruct (cpu_kernel p W H g x y Hxy) as [-> ->].
    apply kernel_of_uniform; [| assumption].
    intros x' y' Hx' Hy'. apply Hu. split; assumption.
  - intros t Hw Hh Hu.
    destruct (gpu_kernel p W H t x y Hw Hh Hxy) as [-> ->].
    apply kernel_of_uniform; [| assumption].
    intros x' y' Hx' Hy'. apply Hu. split; assumption.
Qed.

Lemma step_of_uniform_grid_witness :
  cellA 2 (stepGrid defaultParams 2 1 gridB_2x1) 1 0 =
    clamp01 (0 - 0 * 1 * 1 + Cpu.feedRate defaultParams * (1 - 0)).
Proof.
  refine (proj1 (proj1 (step_of_uniform_grid defaultParams 2 1 0 1 1 0 _ _)
                   gridB_2x1 _)).
  - lia.
  - unfold on_grid. lia.
  - intros x' y' [Hx Hy]. now apply gridB_2x1_cells.
Defined.

(** ** The resolved parameters *)

(** X8.  With [killMin <= killMax] the kill rate of the sequential kernel
    grows with the column, starts at [killMin] and stays below [killMax]:
    it never reaches [killMax] when the range is not a point. *)
Theorem kill_rate_sweeps_the_range p W x x' :
  0 < W -> (killMin p <= killMax p)%R -> 0 <= x <= x' -> x' < W ->
  (killMin p <= Cpu.killRate p W x)%R /\
  (Cpu.killRate p W x <= Cpu.killRate p W x')%R /\
  (Cpu.killRate p W x' <= killMax p)%R /\
  ((killMin p < killMax p)%R -> (Cpu.killRate p W x' < killMax p)%R).
Proof.
  intros HW Hk Hx Hx'. unfold Cpu.killRate.
  assert (HW' : (0 < IZR W)%R) by (apply IZR_lt; lia).
  assert (H0 : (0 <= IZR x)%R) by (apply IZR_le; lia).
  assert (H1 : (IZR x <= IZR x')%R) by (apply IZR_le; lia).
  assert (H2 : (IZR x' < IZR W)%R) by (apply IZR_lt; lia).
  assert (Hi : (0 < / IZR W)%R) by now apply Rinv_0_lt_compat.
  assert (E : (IZR W * / IZR W = 1)%R) by (apply Rinv_r; lra).
  unfold Rdiv.
  assert (B0 : (0 <= IZR x * / IZR W)%R) by nra.
  assert (B1 : (IZR x * / IZR W <= IZR x' * / IZR W)%R) by nra.
  assert (B2 : (IZR x' * / IZR W < 1)%R) by nra.
  repeat split; try intros Hlt; nra.
Qed.

Lemma kill_rate_sweeps_the_range_witness :
  (killMin defaultParams <= Cpu.killRate defaultParams 400 100)%R.
Proof.
  refine (proj1 (kill_rate_sweeps_the_range defaultParams 400 100 399 _ _ _ _));
    try lia.
  unfold defaultParams. cbn [killMin killMax]. lra.
Defined.

(** X9.  The feed rate is the same in every cell and in both renderers; the
    [feedVariation] slider moves it linearly around [feed]: 50 leaves
    [feed], and over [[0, 100]] it stays within [feedDiff / 2] of [feed]. *)
Theorem feed_rate_range p gl :
  (0 <= feedDiff p)%R -> (0 <= feedVariation p <= 100)%R ->
  Gpu.feedRate (Gpu.uniforms p gl) = Cpu.feedRate p /\
  (feed p - feedDiff p / 2 <= Cpu.feedRate p <= feed p + feedDiff p / 2)%R /\
  (feedVariation p = 50%R -> Cpu.feedRate p = feed p).
Proof.
  intros Hd Hv. split; [apply gpu_feedRate |].
  unfold Cpu.feedRate. split; [nra |].
  intros ->. lra.
Qed.

Lemma feed_rate_range_witness :
  (feed defaultParams - feedDiff defaultParams / 2
   <= Cpu.feedRate defaultParams
   <= feed defaultParams + feedDiff defaultParams / 2)%R.
Proof.
  refine (proj1 (proj2 (feed_rate_range defaultParams
                          (Gpu.initWebGL (fun _ => 0%R) 2 2) _ _)));
    unfold defaultParams; cbn [feedDiff feedVariation]; lra.
Defined.

(** ** Sampling *)

(** X10.  Sampling the texture at the centre of the pixel [(x, y)] moved by
    [(dx, dy)] texels reads the texel [((x + dx) mod W, (y + dy) mod H)]:
    under [NEAREST] and [REPEAT] the lookups of the shader are the toroidal
    neighbours, for any pixel and any whole offset. *)
Theorem shader_samples_toroidal_neighbours (t : Gpu.Texture) x y dx dy :
  0 < Gpu.tex_w t -> 0 < Gpu.tex_h t ->
  Gpu.texture t
    (((IZR x + 0.5) / IZR (Gpu.tex_w t)
      + IZR dx * (1.0 / IZR (Gpu.tex_w t)))%R,
     ((IZR y + 0.5) / IZR (Gpu.tex_h t)
      + IZR dy * (1.0 / IZR (Gpu.tex_h t)))%R)
  = Gpu.texel t ((x + dx) `mod` Gpu.tex_w t) ((y + dy) `mod` Gpu.tex_h t).
Proof.
  intros HW HH. now apply texture_neighbour.
Qed.

Lemma shader_samples_toroidal_neighbours_witness :
  Gpu.texture textureB_2x1
    (((IZR 0 + 0.5) / IZR 2 + IZR (-1) * (1.0 / IZR 2))%R,
     ((IZR 0 + 0.5) / IZR 1 + IZR 1 * (1.0 / IZR 1))%R)
  = Gpu.texel textureB_2x1 ((0 + -1) `mod` 2) ((0 + 1) `mod` 1).
Proof.
  refine (shader_samples_toroidal_neighbours textureB_2x1 0 0 (-1) 1 _ _);
    reflexivity.
Defined.

(** ** The two renderers side by side *)

Lemma initial_cells_agree rand W H x y :
  1 <= W -> 1 <= H -> on_grid W H x y ->
  rd (Gpu.initialState rand W H) ((y * W + x) * 4) =
    rd (initialGrid rand W H) ((y * W + x) * 2) /\
  rd (Gpu.initialState rand W H) ((y * W + x) * 4 + 1) =
    rd (initialGrid rand W H) ((y * W + x) * 2 + 1).
Proof.
  intros HW HH Hxy.
  pose proof (cpu_seedSpots_marked rand W H _
                (cpu_fillA_marked W H ltac:(lia) ltac:(lia))) as [_ Hc].
  pose proof (gpu_seedSpots_marked rand W H _
                (gpu_fillA_marked W H ltac:(lia) ltac:(lia))) as [_ Hg].
  pose proof (cell_index_range W H x y Hxy) as Hk.
  destruct (Hc _ Hk) as [Cin Cout]. destruct (Hg _ Hk) as [Gin Gout].
  unfold initialGrid, Gpu.initialState.
  change (Gpu.seedCentre rand W H) with (Cpu.seedCentre rand W H) in *.
  destruct (classic (exists i, (i < 20)%nat /\
              spot_hit W H (Cpu.seedCentre rand W H i) (y * W + x)))
    as [HM | HM].
  - destruct (Cin HM) as [-> ->]. destruct (Gin HM) as [-> ->]. now split.
  - destruct (Cout HM) as [-> ->]. destruct (Gout HM) as [-> ->]. now split.
Qed.

(** X11.  For the same draws of [Math.random] the two renderers start from
    the same state: the texture [initializeTexture] uploads holds, texel by
    texel, the grid [initGrid] builds. *)
Theorem initial_states_agree rand W H :
  1 <= W -> 1 <= H ->
  holds W H (Gpu.initializeTexture rand W H) (initialGrid rand W H) /\
  forall c n,
    Cpu.currentGridRef (Cpu.initGrid rand (Cpu.mkSim W H c n)) =
      Some (initialGrid rand W H).
Proof.
  intros HW HH. split; [| reflexivity].
  split; [reflexivity |]. split; [reflexivity |].
  intros x y Hxy. unfold Gpu.initializeTexture, Gpu.texImage2D, cellA, cellB.
  cbn [Gpu.texel Gpu.red Gpu.green].
  now apply initial_cells_agree.
Qed.

Lemma initial_states_agree_witness :
  holds 5 4 (Gpu.initializeTexture (fun _ => 0.5%R) 5 4)
    (initialGrid (fun _ => 0.5%R) 5 4).
Proof.
  refine (proj1 (initial_states_agree (fun _ => 0.5%R) 5 4 _ _)); lia.
Defined.

Lemma holds_iter p W H t g n :
  0 < W -> 0 < H -> holds W H t g ->
  holds W H (Nat.iter n (stepTexture p W H) t)
    (Nat.iter n (stepGrid (flatKill p) W H) g).
Proof.
  intros HW HH Hh. induction n as [| n IH]; [assumption |].
  rewrite !Nat.iter_succ. now apply holds_step.
Qed.

Lemma flatKill_id p : killMax p = killMin p -> flatKill p = p.
Proof. intros Hk. destruct p; unfold flatKill; cbn in *. now subst. Qed.

(** X12.  Up to the kill-rate gradient the shader computes what the
    sequential kernel computes: if a texture holds a grid, then after any
    number of steps the texture holds the grid the sequential steps give
    under the parameters with [killMax] set to [killMin]; when the range
    [killMin .. killMax] is a point, the two renderers agree on every cell
    after every step. *)
Theorem shader_refines_sequential_kernel p W H t g n :
  0 < W -> 0 < H -> holds W H t g ->
  holds W H (Nat.iter n (stepTexture p W H) t)
    (Nat.iter n (stepGrid (flatKill p) W H) g) /\
  (killMax p = killMin p ->
   holds W H (Nat.iter n (stepTexture p W H) t)
     (Nat.iter n (stepGrid p W H) g)).
Proof.
  intros HW HH Hh. split; [now apply holds_iter |].
  intros Hk. rewrite <- (flatKill_id p Hk) at 2. now apply holds_iter.
Qed.

Lemma shader_refines_sequential_kernel_witness :
  holds 2 1 (Nat.iter 5 (stepTexture defaultParams 2 1) textureB_2x1)
    (Nat.iter 5 (stepGrid (flatKill defaultParams) 2 1) gridB_2x1).
Proof.
  refine (proj1 (shader_refines_sequential_kernel defaultParams 2 1
                   textureB_2x1 gridB_2x1 5 _ _ _)); try lia.
  exact textureB_2x1_holds.
Defined.

(** ** The frames of the WebGL renderer *)

Lemma computeStep_canvas p gl :
  Gpu.canvas_w (Gpu.computeStep p gl) = Gpu.canvas_w gl /\
  Gpu.canvas_h (Gpu.computeStep p gl) = Gpu.canvas_h gl.
Proof.
  unfold Gpu.computeStep.
  destruct (Z_le_gt_dec (iterations p) 0) as [Hle | Hgt].
  - rewrite seqZ_nil by lia. now split.
  - destruct (pingPong_run p gl (Z.to_nat (iterations p))) as (Hw & Hh & _).
    rewrite Z2Nat.id in Hw, Hh by lia. now split.
Qed.

Lemma parity_of_nat n :
  (Z.of_nat n `rem` 2 = 0 /\ (n mod 2 = 0)%nat) \/
  (Z.of_nat n `rem` 2 = 1 /\ (n mod 2 = 1)%nat).
Proof.
  rewrite Z.rem_mod_nonneg by lia.
  change 2 with (Z.of_nat 2). rewrite <- Nat2Z.inj_mod.
  pose proof (Nat.mod_upper_bound n 2 ltac:(lia)).
  destruct (n mod 2)%nat as [| [| m]] eqn:E; [left | right | lia];
    split; reflexivity.
Qed.

(** Texture 0 after one batch. *)
Lemma texture0_after_batch p gl :
  let N := Z.to_nat (iterations p) in
  Gpu.texture0 (Gpu.computeStep p gl) =
    Nat.iter (N - N mod 2)
      (stepTexture p (Gpu.canvas_w gl) (Gpu.canvas_h gl)) (Gpu.texture0 gl).
Proof.
  cbv zeta. unfold Gpu.computeStep.
  destruct (Z_le_gt_dec (iterations p) 0) as [Hle | Hgt].
  - rewrite seqZ_nil by lia.
    replace (Z.to_nat (iterations p)) with 0%nat by lia. reflexivity.
  - destruct (pingPong_run p gl (Z.to_nat (iterations p)))
      as (_ & _ & Hcur & Hprev).
    rewrite Z2Nat.id in Hcur, Hprev by lia.
    rewrite <- (Z2Nat.id (iterations p)) in Hcur at 2 by lia.
    rewrite <- (Z2Nat.id (iterations p)) in Hprev at 2 by lia.
    destruct (parity_of_nat (Z.to_nat (iterations p))) as [[Ez En] | [Ez En]].
    + rewrite Ez in Hcur. rewrite En, Nat.sub_0_r. exact Hcur.
    + assert (Ez' : (Z.of_nat (Z.to_nat (iterations p)) + 1) `rem` 2 = 0).
      { rewrite Z.rem_mod_nonneg in * by lia.
        rewrite Z.add_mod, Ez by lia. reflexivity. }
      rewrite Ez' in Hprev. rewrite En.
      destruct (Z.to_nat (iterations p)) as [| m]; [discriminate |].
      rewrite Nat.sub_succ, Nat.sub_0_r. exact Hprev.
Qed.

(** X13.  The ping-pong loop of one batch of [N >= 1] iterations leaves the
    [N]-fold step of texture 0 in texture [N % 2] and the [(N-1)]-fold step
    in the other texture; the canvas size is unchanged.  Every iteration
    samples one texture and renders into the other. *)
Theorem ping_pong_batch p gl :
  1 <= iterations p ->
  let W := Gpu.canvas_w gl in
  let H := Gpu.canvas_h gl in
  let N := Z.to_nat (iterations p) in
  let gl' := Gpu.computeStep p gl in
  Gpu.canvas_w gl' = W /\ Gpu.canvas_h gl' = H /\
  Gpu.textures gl' (iterations p `rem` 2) =
    Nat.iter N (stepTexture p W H) (Gpu.texture0 gl) /\
  Gpu.textures gl' ((iterations p + 1) `rem` 2) =
    Nat.iter (N - 1) (stepTexture p W H) (Gpu.texture0 gl) /\
  forall i, 0 <= i -> i `rem` 2 <> (i + 1) `rem` 2.
Proof.
  intros HN. cbv zeta.
  destruct (computeStep_canvas p gl) as [Hw Hh].
  destruct (displayed_lags_one_step p gl HN) as [Hd Hc].
  split; [assumption |]. split; [assumption |].
  split; [exact Hc |]. split; [exact Hd |].
  intros i Hi. rewrite !Z.rem_mod_nonneg by lia.
  rewrite Z.add_mod by lia.
  pose proof (Z.mod_pos_bound i 2 ltac:(lia)).
  assert (i `mod` 2 = 0 \/ i `mod` 2 = 1) as [-> | ->] by lia; discriminate.
Qed.

Lemma ping_pong_batch_witness :
  Gpu.textures
    (Gpu.computeStep defaultParams
       (Gpu.mkGL 2 1 textureB_2x1 (Gpu.texImage2D 2 1 None)))
    (iterations defaultParams `rem` 2) =
  Nat.iter 8 (stepTexture defaultParams 2 1) textureB_2x1.
Proof.
  refine (proj1 (proj2 (proj2 (ping_pong_batch defaultParams
            (Gpu.mkGL 2 1 textureB_2x1 (Gpu.texImage2D 2 1 None)) _)))).
  unfold defaultParams. cbn [iterations]. lia.
Defined.

(** X14.  Every batch of the WebGL renderer starts from texture 0.  After
    [k] frames texture 0 holds the [(k * M)]-fold step of its first
    contents, where [M = N] for an even [iterations = N] and [M = N - 1] for
    an odd one: the last iteration of an odd batch is lost, and with
    [iterations = 1] texture 0 never changes. *)
Theorem webgl_frames_compose p gl k :
  let W := Gpu.canvas_w gl in
  let H := Gpu.canvas_h gl in
  let N := Z.to_nat (iterations p) in
  let M := (N - N mod 2)%nat in
  Gpu.texture0 (Nat.iter k (Gpu.computeStep p) gl) =
    Nat.iter (k * M) (stepTexture p W H) (Gpu.texture0 gl) /\
  (iterations p = 1 ->
   Gpu.texture0 (Nat.iter k (Gpu.computeStep p) gl) = Gpu.texture0 gl).
Proof.
  cbv zeta.
  assert (Hk : Gpu.texture0 (Nat.iter k (Gpu.computeStep p) gl) =
               Nat.iter (k * (Z.to_nat (iterations p)
                              - Z.to_nat (iterations p) mod 2))
                 (stepTexture p (Gpu.canvas_w gl) (Gpu.canvas_h gl))
                 (Gpu.texture0 gl) /\
               Gpu.canvas_w (Nat.iter k (Gpu.computeStep p) gl)
               = Gpu.canvas_w gl /\
               Gpu.canvas_h (Nat.iter k (Gpu.computeStep p) gl)
               = Gpu.canvas_h gl).
  { induction k as [| k (IH & Hw & Hh)]; [repeat split; reflexivity |].
    rewrite Nat.iter_succ.
    destruct (computeStep_canvas p (Nat.iter k (Gpu.computeStep p) gl))
      as [-> ->].
    split; [| split; assumption].
    rewrite texture0_after_batch, Hw, Hh, IH.
    cbn [Nat.mul]. now rewrite Nat.iter_add. }
  destruct Hk as [Hk _]. split; [exact Hk |].
  intros E. rewrite Hk, E. change (Z.to_nat 1) with 1%nat.
  cbn [Nat.modulo Nat.divmod Nat.sub snd fst].
  now rewrite Nat.mul_0_r.
Qed.

Lemma webgl_frames_compose_witness :
  Gpu.texture0
    (Nat.iter 5 (Gpu.computeStep oneIteration)
       (Gpu.mkGL 1 1 textureB_1x1 (Gpu.texImage2D 1 1 None)))
  = textureB_1x1.
Proof.
  exact (proj2 (webgl_frames_compose oneIteration
                  (Gpu.mkGL 1 1 textureB_1x1 (Gpu.texImage2D 1 1 None)) 5)
           eq_refl).
Defined.

(** ** Symmetry *)

Lemma stencil_row_shift f f' W H s x y :
  0 < H ->
  (forall x' y', 0 <= x' < W -> 0 <= y' < H ->
     f' x' y' = f x' ((y' + s) `mod` H)) ->
  0 < W ->
  stencil f' W H x y = stencil f W H x ((y + s) `mod` H).
Proof.
  intros HH E HW. unfold stencil.
  rewrite !E by (apply Z.mod_pos_bound; lia).
  assert (S : forall d, ((y + d) `mod` H + s) `mod` H
                        = ((y + s) `mod` H + d) `mod` H).
  { intros d. rewrite !Zplus_mod_idemp_l. f_equal. lia. }
  now rewrite !S.
Qed.

(** X15.  The sequential step commutes with moving the grid vertically on
    the torus: if one grid is another one moved by [s] rows, so are their
    steps.  (Horizontally it does not: the kill rate depends on the
    column.) *)
Theorem step_commutes_with_row_shift p W H s g g' :
  0 < W -> 0 < H -> rows_shifted W H s g g' ->
  rows_shifted W H s (stepGrid p W H g) (stepGrid p W H g').
Proof.
  intros HW HH Hsh x y Hxy.
  assert (Hxy2 : on_grid W H x ((y + s) `mod` H)).
  { destruct Hxy as [Hx _]. split; [assumption |].
    apply Z.mod_pos_bound. lia. }
  destruct (stepGrid_cell p W H g' x y ltac:(lia) ltac:(lia) Hxy) as [-> ->].
  destruct (stepGrid_cell p W H g x _ ltac:(lia) ltac:(lia) Hxy2) as [-> ->].
  destruct (cpu_kernel p W H g' x y Hxy) as [-> ->].
  destruct (cpu_kernel p W H g x _ Hxy2) as [-> ->].
  unfold kernelA, kernelB.
  rewrite (stencil_row_shift (cellA W g) (cellA W g') W H s),
          (stencil_row_shift (cellB W g) (cellB W g') W H s); try assumption.
  - destruct (Hsh x y Hxy) as [-> ->]. split; reflexivity.
  - intros x' y' Hx' Hy'. now apply Hsh.
  - intros x' y' Hx' Hy'. now apply Hsh.
Qed.

Lemma step_commutes_with_row_shift_witness :
  rows_shifted 1 2 1
    (stepGrid defaultParams 1 2 [1; 0; 0; 1]%R)
    (stepGrid defaultParams 1 2 [0; 1; 1; 0]%R).
Proof.
  refine (step_commutes_with_row_shift defaultParams 1 2 1
            [1; 0; 0; 1]%R [0; 1; 1; 0]%R _ _ _); try lia.
  intros x y [Hx Hy]. assert (x = 0) as -> by lia.
  assert (y = 0 \/ y = 1) as [-> | ->] by lia; split; reflexivity.
Defined.
